(** * Animation interpolation engine and server tick loop

    A shallow embedding of [client-animations.ts] (the function
    [getAnimationValues] and its helpers) and of the re-arming arithmetic of
    [Game.update] in [server-game.ts], followed by the properties of the
    design document that can be stated over it. *)

From Stdlib Require Import QArith Qcanon Lqa.
From stdpp Require Import gmap strings list numbers sorting.

Local Open Scope Z_scope.

(** ** JavaScript numbers

    A JavaScript [number] is modelled by an exact rational or one of the three
    special values that a division by zero or an [undefined] operand
    introduces.  Arithmetic on finite values is exact (rounding of binary64 is
    not modelled) and the two zeros are identified, a zero divisor being read
    as [+0], which is what [x - x] evaluates to. *)

Inductive number : Type :=
| Fin (q : Qc)
| PInf
| NInf
| NaN.

Global Instance number_eq_dec : EqDecision number.
Proof. solve_decision. Defined.

Module Num.

Definition ofZ (z : Z) : number := Fin (Qc_of_Z z).

Definition zero : number := ofZ 0.
Definition one : number := ofZ 1.
Definition hundred : number := ofZ 100.

(** The infinity of a given sign; the sign [Eq] stands for an undefined
    result. *)
Definition inf_of (s : comparison) : number :=
  match s with
  | Gt => PInf
  | Lt => NInf
  | Eq => NaN
  end.

Definition sgn_mul (s t : comparison) : comparison :=
  match s, t with
  | Eq, _ | _, Eq => Eq
  | Gt, Gt | Lt, Lt => Gt
  | Gt, Lt | Lt, Gt => Lt
  end.

Definition sgnQ (q : Qc) : comparison := (q ?= Qc_of_Z 0)%Qc.

Definition neg (a : number) : number :=
  match a with
  | Fin q => Fin (- q)%Qc
  | PInf => NInf
  | NInf => PInf
  | NaN => NaN
  end.

Definition add (a b : number) : number :=
  match a, b with
  | NaN, _ | _, NaN => NaN
  | Fin p, Fin q => Fin (p + q)%Qc
  | PInf, NInf | NInf, PInf => NaN
  | PInf, _ | _, PInf => PInf
  | NInf, _ | _, NInf => NInf
  end.

Definition sub (a b : number) : number := add a (neg b).

Definition mul (a b : number) : number :=
  match a, b with
  | NaN, _ | _, NaN => NaN
  | Fin p, Fin q => Fin (p * q)%Qc
  | Fin p, PInf | PInf, Fin p => inf_of (sgnQ p)
  | Fin p, NInf | NInf, Fin p => inf_of (sgn_mul (sgnQ p) Lt)
  | PInf, PInf | NInf, NInf => PInf
  | PInf, NInf | NInf, PInf => NInf
  end.

Definition div (a b : number) : number :=
  match a, b with
  | NaN, _ | _, NaN => NaN
  | Fin p, Fin q =>
      if decide (q = Qc_of_Z 0) then inf_of (sgnQ p) else Fin (p / q)%Qc
  | Fin _, (PInf | NInf) => zero
  | (PInf | NInf), (PInf | NInf) => NaN
  | PInf, Fin q => match sgnQ q with Lt => NInf | _ => PInf end
  | NInf, Fin q => match sgnQ q with Lt => PInf | _ => NInf end
  end.

(** Ordering; [None] when an operand is [NaN], in which case every
    relational operator of JavaScript answers [false]. *)
Definition cmp (a b : number) : option comparison :=
  match a, b with
  | NaN, _ | _, NaN => None
  | Fin p, Fin q => Some (p ?= q)%Qc
  | PInf, PInf | NInf, NInf => Some Eq
  | PInf, _ | _, NInf => Some Gt
  | NInf, _ | _, PInf => Some Lt
  end.

Definition gt (a b : number) : bool :=
  match cmp a b with Some Gt => true | _ => false end.
Definition ge (a b : number) : bool :=
  match cmp a b with Some Gt | Some Eq => true | _ => false end.
Definition lt (a b : number) : bool :=
  match cmp a b with Some Lt => true | _ => false end.
Definition eq (a b : number) : bool :=
  match cmp a b with Some Eq => true | _ => false end.

Definition finite (a : number) : Prop :=
  match a with Fin _ => True | _ => False end.

(** What the outcome of a comparison of rationals says about them. *)
Inductive Qccompare_cases (p q : Qc) : comparison -> Prop :=
| Qcc_lt : (p < q)%Qc -> Qccompare_cases p q Lt
| Qcc_eq : p = q -> Qccompare_cases p q Eq
| Qcc_gt : (q < p)%Qc -> Qccompare_cases p q Gt.

End Num.

Declare Scope num_scope.
Delimit Scope num_scope with num.
Bind Scope num_scope with number.
Infix "+" := Num.add : num_scope.
Infix "-" := Num.sub : num_scope.
Infix "*" := Num.mul : num_scope.
Infix "/" := Num.div : num_scope.
Infix ">?" := Num.gt (at level 70) : num_scope.
Infix ">=?" := Num.ge (at level 70) : num_scope.
Infix "<?" := Num.lt (at level 70) : num_scope.
Infix "==?" := Num.eq (at level 70) : num_scope.

(** ** Data model

    The types of [types/types.ts] are not part of the sources at hand; they
    are read off the way the engine uses them.  Keyframe keys are integers,
    and the names of parts are taken not to clash with the members every
    JavaScript object inherits. *)

(** [AnimationDataPart]: the transform of one drawable part. *)
Record AnimationDataPart : Type := mkPart {
  x : number;
  y : number;
  rotation : number
}.

Global Instance AnimationDataPart_eq_dec : EqDecision AnimationDataPart.
Proof. solve_decision. Defined.

Definition emptyValues : AnimationDataPart :=
  {| x := Num.zero; y := Num.zero; rotation := Num.zero |}.

(** [Animation] and [OldAnimation]: the latter is the former with the
    property [canceledAt]; reading it off a descriptor that lacks it gives
    [undefined]. *)
Record Animation : Type := mkAnimation {
  name : string;
  createdAt : Z;
  duration : Z;
  canceledAt : option Z
}.

(** [AnimationData]: keyframe percentage to the transforms of the parts at
    that keyframe.  The list is in the order in which [Object.keys]
    enumerates the object; looking a key up finds its first entry. *)
Definition AnimationData : Type := list (Z * gmap string AnimationDataPart).

(** The optional parameter [type]. *)
Inductive AnimationType : Type := new | old.

Global Instance AnimationType_eq_dec : EqDecision AnimationType.
Proof. solve_decision. Defined.

(** ** Completions

    A call either returns or throws; the only exception the engine can meet
    is the [TypeError] of a property read on [undefined]. *)

Inductive exception : Type := TypeError.

Inductive completion (A : Type) : Type :=
| Normal (a : A)
| Throw (e : exception).
Arguments Normal {A} a.
Arguments Throw {A} e.

Global Instance exception_eq_dec : EqDecision exception.
Proof. solve_decision. Defined.

Global Instance completion_eq_dec {A} `{EqDecision A} :
  EqDecision (completion A).
Proof. solve_decision. Defined.

Global Instance completion_ret : MRet completion := @Normal.
Global Instance completion_bind : MBind completion :=
  fun A B f c => match c with Normal a => f a | Throw e => Throw e end.

(** [Array.prototype.forEach] with a callback that updates a local state
    and may throw. *)
Fixpoint forEach {A S : Type} (f : S -> A -> completion S) (l : list A) (s : S)
  : completion S :=
  match l with
  | [] => Normal s
  | a :: l' => s' ← f s a; forEach f l' s'
  end.

(** ** Property reads *)

(** [Number(k)] for a key of a keyframe table, [NaN] for [undefined]. *)
Definition NumberOfKey (k : option Z) : number :=
  match k with
  | Some z => Num.ofZ z
  | None => NaN
  end.

(** The integer a number denotes as a property key, if any. *)
Definition keyOfNumber (n : number) : option Z :=
  match n with
  | Fin q => if decide (Qden q = 1%positive) then Some (Qnum q) else None
  | _ => None
  end.

Fixpoint assoc {V : Type} (k : Z) (l : list (Z * V)) : option V :=
  match l with
  | [] => None
  | (k', v) :: l' => if decide (k = k') then Some v else assoc k l'
  end.

(** [animationData[n]] on a table that is there. *)
Definition frameAt (animationData : AnimationData) (n : number)
  : option (gmap string AnimationDataPart) :=
  k ← keyOfNumber n; assoc k animationData.

(** [animationData[n]]: a [TypeError] when the table is [undefined]. *)
Definition readFrame (animationData : option AnimationData) (n : number)
  : completion (option (gmap string AnimationDataPart)) :=
  match animationData with
  | Some data => Normal (frameAt data n)
  | None => Throw TypeError
  end.

(** [animationData[n] && animationData[n][returnKey]], defaulting to a copy
    of [emptyValues] when it is falsy. *)
Definition partAt (animationData : option AnimationData) (n : number)
    (returnKey : string) : completion AnimationDataPart :=
  frame ← readFrame animationData n;
  Normal (default emptyValues (frame ≫= (.!! returnKey))).

(** ** The engine, [client-animations.ts]

    [animations] is the table imported from [./animations], [now] the reading
    of [Date.now()]; one call of the engine is taken to see one reading. *)

Record AnimationKeys : Type := mkKeys {
  from : number;
  to : number;
  progress : number
}.

Definition isOldAnimationCanceled (now : Z) (oldAnimation : option Animation)
  : bool :=
  match oldAnimation with
  | None => false
  | Some a =>
      (Num.ofZ now - Num.ofZ (createdAt a) - Num.ofZ (duration a)
         <? Num.zero)%num
  end.

Definition calculateProgressBetweenKeys (from to progress : number) : number :=
  let diff := (to - from)%num in
  let progressBetween := ((progress - from) / diff)%num in
  if (progressBetween >? Num.one)%num then Num.one else progressBetween.

(** The callback of [keys.forEach] in [getAnimationKeys], run over the keys
    from position [keyIndex] on; the state is the pair of [from] and [to].
    A key is the decimal string of an integer, so [keys[keyIndex + 1]] is
    truthy exactly when it is there. *)
Fixpoint scanKeys (keys : list Z) (progress : number) (keyIndex : nat)
    (rest : list Z) (ft : number * number) : number * number :=
  match rest with
  | [] => ft
  | key :: rest' =>
      let ft' :=
        if (progress >=? Num.ofZ key)%num then
          (Num.ofZ key,
           match keys !! S keyIndex with
           | Some next => Num.ofZ next
           | None => Num.hundred
           end)
        else ft in
      scanKeys keys progress (S keyIndex) rest' ft'
  end.

(** The progress of a descriptor: elapsed time over duration, in percent,
    cut at 100. *)
Definition timeElapsed (now : Z) (animation : Animation)
    (type : option AnimationType) : number :=
  if decide (type = Some old) then
    (NumberOfKey (canceledAt animation) - Num.ofZ (createdAt animation))%num
  else
    (Num.ofZ now - Num.ofZ (createdAt animation))%num.

Definition progressOf (now : Z) (animation : Animation)
    (type : option AnimationType) : number :=
  let progress :=
    (timeElapsed now animation type / Num.ofZ (duration animation)
       * Num.hundred)%num in
  if (progress >? Num.hundred)%num then Num.hundred else progress.

(** The run of [keys.forEach] from its initial state: [from = 0] and
    [to = Number(keys[0])]. *)
Definition bracketKeys (keys : list Z) (progress : number) : number * number :=
  scanKeys keys progress 0 keys (Num.zero, NumberOfKey (keys !! 0%nat)).

Definition getAnimationKeys (now : Z) (animation : option Animation)
    (animationData : option AnimationData) (type : option AnimationType)
  : AnimationKeys :=
  match animation, animationData with
  | Some a, Some data =>
      let progress := progressOf now a type in
      let '(from, to) := bracketKeys data.*1 progress in
      {| from := from; to := to; progress := progress |}
  | _, _ => {| from := Num.zero; to := Num.zero; progress := Num.zero |}
  end.

(** One field of the interpolated transform. *)
Definition lerp (fromValue toValue progressBetween : number) : number :=
  (fromValue + (toValue - fromValue) * progressBetween)%num.

Definition blend (fromValues toValues : AnimationDataPart)
    (progressBetween : number) : AnimationDataPart :=
  {| x := lerp (x fromValues) (x toValues) progressBetween;
     y := lerp (y fromValues) (y toValues) progressBetween;
     rotation := lerp (rotation fromValues) (rotation toValues) progressBetween |}.

(** The test that lets the pass over the old animation run:
    [baseFrom == 0 && isOldAnimationCanceled(animation)]. *)
Definition crossfadeGuard (now : Z) (baseFrom : option number)
    (animation : option Animation) : bool :=
  match baseFrom with
  | Some b => (b ==? Num.zero)%num
  | None => false
  end && isOldAnimationCanceled now animation.

(** The values to animate from: those of the old animation when it has any
    for the part, else those of the table at [from]. *)
Definition fromValuesOf (from : number) (animationData : option AnimationData)
    (oldAnimationValues : option (gmap string AnimationDataPart))
    (returnKey : string) : completion AnimationDataPart :=
  match oldAnimationValues ≫= (.!! returnKey) with
  | Some v => Normal v
  | None => partAt animationData from returnKey
  end.

(** The callback of [returnKeys.forEach] in [calculateAnimatedValues]. *)
Definition animatePart (from to progressBetween : number)
    (animationData : option AnimationData)
    (oldAnimationValues : option (gmap string AnimationDataPart))
    (result : gmap string AnimationDataPart) (returnKey : string)
  : completion (gmap string AnimationDataPart) :=
  let result := <[returnKey := emptyValues]> result in
  fromValues ← fromValuesOf from animationData oldAnimationValues returnKey;
  toValues ← partAt animationData to returnKey;
  Normal (<[returnKey := blend fromValues toValues progressBetween]> result).

(** [from] and [to] are numbers by their type, so the [typeof] test of the
    source never fires. *)
Definition calculateAnimatedValues (now : Z) (from to progress : number)
    (animation : option Animation) (animationData : option AnimationData)
    (returnKeys : list string) (type : option AnimationType)
    (baseFrom : option number)
    (oldAnimationValues : option (gmap string AnimationDataPart))
  : completion (gmap string AnimationDataPart) :=
  if bool_decide (type = Some old) && negb (crossfadeGuard now baseFrom animation)
  then Normal ∅
  else
    let progressBetween := calculateProgressBetweenKeys from to progress in
    forEach (animatePart from to progressBetween animationData oldAnimationValues)
      returnKeys ∅.

Section Engine.

Context (animations : gmap string AnimationData).

(** [animations[animation?.name]]; for a missing animation the name reads
    [undefined], which as a property key is the string of that name. *)
Definition animationDataOf (animation : option Animation)
  : option AnimationData :=
  animations !! match animation with
                | Some a => name a
                | None => "undefined"
                end.

Definition getAnimationValues (now : Z) (animation oldAnimation : option Animation)
    (returnKeys : list string) : completion (gmap string AnimationDataPart) :=
  if bool_decide (length returnKeys = 0%nat) || bool_decide (animation = None)
  then Normal ∅
  else
    let animationData := animationDataOf animation in
    let oldAnimationData := animationDataOf oldAnimation in
    let k := getAnimationKeys now animation animationData None in
    let ko := getAnimationKeys now oldAnimation oldAnimationData (Some old) in
    oldAnimationValues ←
      calculateAnimatedValues now (from ko) (to ko) (progress ko) oldAnimation
        oldAnimationData returnKeys (Some old) (Some (from k)) None;
    calculateAnimatedValues now (from k) (to k) (progress k) animation
      animationData returnKeys (Some new) None (Some oldAnimationValues).

End Engine.

(** What the callback of [returnKeys.forEach] stores for a part when the
    table is there: the values at [from], or those of the old animation,
    interpolated towards the values at [to]. *)
Definition partValue (from to progressBetween : number)
    (animationData : AnimationData)
    (oldAnimationValues : option (gmap string AnimationDataPart))
    (returnKey : string) : AnimationDataPart :=
  blend
    (match oldAnimationValues ≫= (.!! returnKey) with
     | Some v => v
     | None =>
         default emptyValues (frameAt animationData from ≫= (.!! returnKey))
     end)
    (default emptyValues (frameAt animationData to ≫= (.!! returnKey)))
    progressBetween.

(** The transform of one part in the object a call returns. *)
Definition transformOf (c : completion (gmap string AnimationDataPart))
    (returnKey : string) : completion (option AnimationDataPart) :=
  result ← c; Normal (result !! returnKey).

(** ** The tick loop, [server-game.ts]

    Only the fields that time the loop are kept; the work of a tick on
    players and sockets does not touch them.  [update] returns the delay it
    hands to [setTimeout] together with the new state. *)

Record Game : Type := mkGame {
  tickRate : number;
  loopTimeout : number;
  lastUpdateTime : number;
  start : number;
  time : number
}.

(** The nominal tick interval, [1000 / tickRate]. *)
Definition tickInterval : Qc := (Qc_of_Z 1000 / Qc_of_Z 60)%Qc.

(** The constructor, given the readings of [Date.now()] and of
    [new Date().getTime()]; it arms the first tick after [loopTimeout]. *)
Definition newGame (t0 t1 : Z) : Game * number :=
  let tickRate := Num.ofZ 60 in
  let loopTimeout := (Num.ofZ 1000 / tickRate)%num in
  ({| tickRate := tickRate;
      loopTimeout := loopTimeout;
      lastUpdateTime := Num.ofZ t0;
      start := Num.ofZ t1;
      time := Num.zero |},
   loopTimeout).



(** ** The players of a game, [server-game.ts]

    The class [Player] and the modules [game.addPlayer], [game.movePlayers]
    and [game.sendUpdateToPlayers] are not part of the sources at hand.  A
    player is a value of a type [Player], each method the game calls on it
    is an operation on that value, and of a socket only its [id] is read. *)

Class PlayerMethods (Player PlayerMovement : Type) : Type := {
  handleAttack : Player -> Player;
  spawn : string -> number -> Player -> Player;
  handleMovement : PlayerMovement -> Player -> Player;
  handleMouseDirection : number -> Player -> Player;
  setIsAttacking : bool -> Player -> Player
}.

Module Socket.
Record t : Type := mk { id : string }.
End Socket.

(** The objects a game holds besides its timing fields. *)
Record GameObjects (Player : Type) : Type := mkObjects {
  sockets : gmap string Socket.t;
  players : gmap string Player;
  playingPlayers : gmap string Player;
  mapSize : number
}.
Arguments mkObjects {Player} _ _ _ _.
Arguments sockets {Player} _.
Arguments players {Player} _.
Arguments playingPlayers {Player} _.
Arguments mapSize {Player} _.

(** [Object.keys] of an object used as a map; the order of enumeration is
    that of the map, not the order of insertion. *)
Definition objectKeys {V : Type} (m : gmap string V) : list string :=
  (map_to_list m).*1.

Section GameObjects.

Context {Player PlayerMovement : Type} `{!PlayerMethods Player PlayerMovement}.

(** The objects of a game as the constructor leaves them. *)
Definition newObjects : GameObjects Player :=
  {| sockets := ∅; players := ∅; playingPlayers := ∅;
     mapSize := Num.ofZ 1000 |}.

(** The callback of [Object.keys(players).forEach] in
    [handlePlayerAttacks]: the player under the key is made to attack. *)
Definition attackOf (players : gmap string Player) (key : string)
  : completion (gmap string Player) :=
  match players !! key with
  | Some player => Normal (<[key := handleAttack player]> players)
  | None => Throw TypeError
  end.

Definition handlePlayerAttacks (players : gmap string Player)
  : completion (gmap string Player) :=
  forEach attackOf (objectKeys players) players.

Definition removePlayer (g : GameObjects Player) (socket : Socket.t)
  : GameObjects Player :=
  {| sockets := delete (Socket.id socket) (sockets g);
     players := delete (Socket.id socket) (players g);
     playingPlayers := playingPlayers g;
     mapSize := mapSize g |}.

(** The game with the player under a key replaced. *)
Definition withPlayer (g : GameObjects Player) (key : string) (player : Player)
  : GameObjects Player :=
  {| sockets := sockets g;
     players := <[key := player]> (players g);
     playingPlayers := playingPlayers g;
     mapSize := mapSize g |}.

(** [player.spawn] is called on whatever [this.players[socket.id]] is. *)
Definition spawnPlayer (g : GameObjects Player) (socket : Socket.t)
    (username : string) : completion (GameObjects Player) :=
  match players g !! Socket.id socket with
  | Some player =>
      Normal (withPlayer g (Socket.id socket) (spawn username (mapSize g) player))
  | None => Throw TypeError
  end.

(** [player && player.handleMovement(playerMovement)] *)
Definition handlePlayerMovement (g : GameObjects Player) (socket : Socket.t)
    (playerMovement : PlayerMovement) : GameObjects Player :=
  match players g !! Socket.id socket with
  | Some player =>
      withPlayer g (Socket.id socket) (handleMovement playerMovement player)
  | None => g
  end.

Definition handlePlayerMouseDirection (g : GameObjects Player)
    (socket : Socket.t) (direction : number) : GameObjects Player :=
  match players g !! Socket.id socket with
  | Some player =>
      withPlayer g (Socket.id socket) (handleMouseDirection direction player)
  | None => g
  end.

Definition setPlayerIsAttacking (g : GameObjects Player) (socket : Socket.t)
    (bool : bool) : GameObjects Player :=
  match players g !! Socket.id socket with
  | Some player =>
      withPlayer g (Socket.id socket) (setIsAttacking bool player)
  | None => g
  end.

End GameObjects.

(** ** Notions used in the statements *)

(** A value cut from above only. *)
Definition capAt (hi v : Qc) : Qc := if decide (hi < v)%Qc then hi else v.

(** The progress of a descriptor whose clock stopped after [elapsed]
    milliseconds. *)
Definition progressAfter (elapsed duration : Z) : number :=
  let progress := (Num.ofZ elapsed / Num.ofZ duration * Num.hundred)%num in
  if (progress >? Num.hundred)%num then Num.hundred else progress.

(** The transform of a part of an animation taken on its own at a given
    progress: bracket the progress, then interpolate between the two
    keyframes. *)
Definition transformAtProgress (animationData : AnimationData)
    (progress : number) (returnKey : string) : AnimationDataPart :=
  let '(from, to) := bracketKeys animationData.*1 progress in
  blend (default emptyValues (frameAt animationData from ≫= (.!! returnKey)))
        (default emptyValues (frameAt animationData to ≫= (.!! returnKey)))
        (calculateProgressBetweenKeys from to progress).

(** Two keyframe tables have the same keys and the same entries for a
    part. *)
Definition agreeOn (returnKey : string) (d1 d2 : AnimationData) : Prop :=
  Forall2 (fun e1 e2 => e1.1 = e2.1 /\ e1.2 !! returnKey = e2.2 !! returnKey)
    d1 d2.

(** The same for tables that may be missing: both are, or neither is. *)
Definition tablesAgree (returnKey : string) (t1 t2 : option AnimationData)
  : Prop :=
  option_Forall2 (agreeOn returnKey) t1 t2.

(** A transform whose three fields are finite numbers. *)
Definition finitePart (v : AnimationDataPart) : Prop :=
  Num.finite (x v) /\ Num.finite (y v) /\ Num.finite (rotation v).


(** ** The design document's formulas

    Definitions that follow the words of the design document, to compare the
    code with. *)



(** The greatest key less than or equal to [progress], or 0 if there is
    none. *)
Definition spec_from (keys : list Z) (progress : number) : Z :=
  match filter (fun k => (progress >=? Num.ofZ k)%num = true) keys with
  | [] => 0
  | k :: l => foldr Z.max k l
  end.

(** The key immediately after [from] in the table, or 100 if [from] is the
    last key; the key after [from] is taken to be the least key above it,
    which in an ascending table is the next one. *)
Definition spec_to (keys : list Z) (from : Z) : Z :=
  match filter (fun k => from < k) keys with
  | [] => 100
  | k :: l => foldr Z.min k l
  end.

(** ** Sample data

    The keyframe table of the design document's worked example, and a few
    more to run the engine on. *)

Module Sample.

Definition part (a b c : Z) : AnimationDataPart :=
  mkPart (Num.ofZ a) (Num.ofZ b) (Num.ofZ c).

Definition partQ (a b c : Q) : AnimationDataPart :=
  mkPart (Fin (Q2Qc a)) (Fin (Q2Qc b)) (Fin (Q2Qc c)).

Definition swing : AnimationData :=
  [ (0, {[ "head" := part 0 0 0 ]});
    (40, {[ "head" := part 10 0 0 ]});
    (60, {[ "head" := part 10 5 0 ]}) ].

(** Has no entry for the head. *)
Definition wave : AnimationData :=
  [ (0, {[ "armLeft" := part 0 0 0 ]});
    (50, {[ "armLeft" := part 4 4 1 ]}) ].

(** Has a keyframe at 100. *)
Definition nod : AnimationData :=
  [ (0, {[ "head" := part 0 0 0 ]});
    (100, {[ "head" := part 10 0 0 ]}) ].

(** [swing] with entries for another part besides. *)
Definition swing' : AnimationData :=
  [ (0, {[ "head" := part 0 0 0; "armLeft" := part 1 1 1 ]});
    (40, {[ "head" := part 10 0 0 ]});
    (60, {[ "head" := part 10 5 0; "armLeft" := part 7 7 7 ]}) ].

Definition animations : gmap string AnimationData :=
  {[ "swing" := swing; "wave" := wave; "nod" := nod ]}.

Definition animations' : gmap string AnimationData :=
  {[ "swing" := swing'; "wave" := wave; "nod" := nod ]}.

(** A player that only counts what is done to it. *)
Record puppet : Type := mkPuppet {
  username : string;
  attacks : nat;
  moves : nat;
  attacking : bool
}.

Global Instance puppet_eq_dec : EqDecision puppet.
Proof. solve_decision. Defined.

Global Instance puppet_methods : PlayerMethods puppet unit := {|
  handleAttack p :=
    mkPuppet (username p) (S (attacks p)) (moves p) (attacking p);
  spawn u _ p := mkPuppet u 0 0 false;
  handleMovement _ p :=
    mkPuppet (username p) (attacks p) (S (moves p)) (attacking p);
  handleMouseDirection _ p := p;
  setIsAttacking b p := mkPuppet (username p) (attacks p) (moves p) b
|}.

Definition lobby : GameObjects puppet :=
  {| sockets := {[ "a" := Socket.mk "a"; "b" := Socket.mk "b" ]};
     players := {[ "a" := mkPuppet "ann" 0 0 false;
                   "b" := mkPuppet "bob" 2 5 true ]};
     playingPlayers := ∅;
     mapSize := Num.ofZ 1000 |}.

End Sample.

(** * Properties *)

(** ** Facts about numbers *)

Module NumFacts.
Import Num.

Lemma Qccompare_spec p q : Qccompare_cases p q (p ?= q)%Qc.
Proof.
  destruct (p ?= q)%Qc eqn:E.
  - apply Qcc_eq. by apply Qceq_alt.
  - apply Qcc_lt. by apply Qclt_alt.
  - apply Qcc_gt. by apply Qcgt_alt.
Qed.

Lemma Qc_of_Z_nonzero z : z <> 0 -> Qc_of_Z z <> Qc_of_Z 0.
Proof. intros H E. by apply Z2Qc_inj in E. Qed.

Lemma ofZ_sub a b : (ofZ a - ofZ b)%num = ofZ (a - b).
Proof. unfold ofZ, sub; simpl. by rewrite Z2Qc_inj_sub. Qed.

Lemma cmp_ofZ a b : cmp (ofZ a) (ofZ b) = Some (a ?= b)%Z.
Proof.
  unfold ofZ; simpl. f_equal.
  unfold Qccompare, Qcompare; simpl. by rewrite !Z.mul_1_r.
Qed.


Lemma lt_ofZ a b : (ofZ a <? ofZ b)%num = bool_decide (a < b)%Z.
Proof.
  unfold lt. rewrite cmp_ofZ.
  destruct (Z.compare_spec a b); case_bool_decide; try done; lia.
Qed.

Lemma ge_ofZ a b : (ofZ a >=? ofZ b)%num = bool_decide (b <= a)%Z.
Proof.
  unfold ge. rewrite cmp_ofZ.
  destruct (Z.compare_spec a b); case_bool_decide; try done; lia.
Qed.

Lemma gt_Fin p q : (Fin p >? Fin q)%num = bool_decide (q < p)%Qc.
Proof.
  unfold gt; simpl.
  destruct (Qccompare_spec p q) as [H| -> |H].
  - rewrite bool_decide_eq_false_2; [done|].
    apply Qcle_not_lt. by apply Qclt_le_weak.
  - rewrite bool_decide_eq_false_2; [done|].
    intros H. by destruct (Qclt_not_eq _ _ H).
  - by rewrite bool_decide_eq_true_2.
Qed.

Lemma ge_Fin p q : (Fin p >=? Fin q)%num = bool_decide (q <= p)%Qc.
Proof.
  unfold ge; simpl.
  destruct (Qccompare_spec p q) as [H| -> |H].
  - rewrite bool_decide_eq_false_2; [done|]. by apply Qclt_not_le.
  - rewrite bool_decide_eq_true_2; [done|]. apply Qcle_refl.
  - rewrite bool_decide_eq_true_2; [done|]. by apply Qclt_le_weak.
Qed.

Lemma eq_zero n : (n ==? zero)%num = true <-> n = zero.
Proof.
  unfold eq, zero, ofZ. destruct n as [q| | |]; simpl; try (split; done).
  destruct (Qccompare_spec q (Qc_of_Z 0)) as [H| -> |H]; split; try done.
  - intros [= ->]. by destruct (Qclt_not_eq _ _ H).
  - intros [= ->]. by destruct (Qclt_not_eq _ _ H).
Qed.

(** A comparison with a key carries over to every smaller key. *)
Lemma ge_ofZ_mono p k k' :
  (p >=? ofZ k)%num = true -> k' <= k -> (p >=? ofZ k')%num = true.
Proof.
  destruct p as [q| | |]; try done.
  unfold ofZ. rewrite !ge_Fin, !bool_decide_eq_true. intros H Hk.
  eapply Qcle_trans; [|exact H]. by rewrite <- Z2Qc_inj_le.
Qed.

End NumFacts.

(** ** Progress Resolver: the progress *)

Section Progress.
Import Num NumFacts.

Lemma progressOf_live now a :
  progressOf now a None = progressAfter (now - createdAt a) (duration a).
Proof.
  unfold progressOf, progressAfter, timeElapsed.
  rewrite decide_False by done. by rewrite ofZ_sub.
Qed.

Lemma progressOf_frozen now a c :
  canceledAt a = Some c ->
  progressOf now a (Some old) = progressAfter (c - createdAt a) (duration a).
Proof.
  intros Hc. unfold progressOf, progressAfter, timeElapsed.
  rewrite decide_True by done. rewrite Hc. unfold NumberOfKey.
  by rewrite ofZ_sub.
Qed.

Lemma progressAfter_nonzero e d :
  d <> 0 ->
  progressAfter e d
  = Fin (capAt (Qc_of_Z 100) (Qc_of_Z 100 * Qc_of_Z e / Qc_of_Z d)%Qc).
Proof.
  intros Hd. unfold progressAfter, capAt, hundred, ofZ; simpl.
  destruct (decide (Qc_of_Z d = Qc_of_Z 0)) as [E|_]; [by apply Z2Qc_inj in E|].
  simpl. rewrite gt_Fin.
  assert (Qc_of_Z e / Qc_of_Z d * Qc_of_Z 100
          = Qc_of_Z 100 * Qc_of_Z e / Qc_of_Z d)%Qc as ->.
  { field. rewrite <- Z2Qc_inj_0. by apply Qc_of_Z_nonzero. }
  by case_bool_decide; case_decide.
Qed.


Lemma capAt_le hi v : (capAt hi v <= hi)%Qc.
Proof.
  unfold capAt. case_decide as H; [apply Qcle_refl|by apply Qcnot_lt_le].
Qed.

Lemma ratio_nonneg e d :
  0 <= e -> 0 < d -> (Qc_of_Z 0 <= Qc_of_Z 100 * Qc_of_Z e / Qc_of_Z d)%Qc.
Proof.
  intros He Hd. rewrite Z2Qc_inj_0. unfold Qcdiv.
  apply Qcmult_nonneg_nonneg; [apply Qcmult_nonneg_nonneg|].
  - by rewrite <- Z2Qc_inj_0, <- Z2Qc_inj_le.
  - by rewrite <- Z2Qc_inj_0, <- Z2Qc_inj_le.
  - apply Qclt_le_weak, Qcinv_pos. by rewrite <- Z2Qc_inj_0, <- Z2Qc_inj_lt.
Qed.


End Progress.

Section ProgressClaims.
Import Num NumFacts.







End ProgressClaims.

(** ** Transform Blender: the blend factor *)

Section BlendFactor.
Import Num NumFacts.

(** C6, as amended: on finite arguments the blend factor is
    [(progress - from) / (to - from)] cut at 1 from above and not cut from
    below; when [to] equals [from] the division is by zero and is not
    avoided: the factor is 1 for a progress above [from] ([+Infinity], cut
    at 1), [NaN] for a progress equal to [from] and [-Infinity] for a
    progress below it. *)
Theorem progressBetween_cases (f t p : Qc) :
  (t <> f ->
   calculateProgressBetweenKeys (Fin f) (Fin t) (Fin p)
   = Fin (capAt (Qc_of_Z 1) ((p - f) / (t - f))%Qc))
  /\ (t = f ->
      calculateProgressBetweenKeys (Fin f) (Fin t) (Fin p)
      = if decide (f < p)%Qc then one
        else if decide (p = f) then NaN else NInf).
Proof.
  unfold calculateProgressBetweenKeys. split.
  - intros Hne. simpl.
    rewrite decide_False.
    + unfold one, ofZ, capAt. rewrite gt_Fin.
      by case_bool_decide; case_decide.
    + rewrite Z2Qc_inj_0. intros E. apply Hne.
      rewrite <- (Qcplus_0_l f), <- E. ring.
  - intros ->. simpl.
    rewrite decide_True by (rewrite Z2Qc_inj_0; ring).
    unfold sgnQ.
    destruct (Qccompare_spec (p + - f) (Qc_of_Z 0)) as [H|H|H].
    + rewrite decide_False, decide_False; [done| |].
      * intros ->. revert H. rewrite Qcplus_opp_r. by intros [=].
      * intros H'. apply Qclt_minus_iff in H'.
        apply (Qclt_not_le _ _ H). rewrite Z2Qc_inj_0.
        by apply Qclt_le_weak.
    + rewrite decide_False, decide_True; [done| |].
      * rewrite <- (Qcplus_0_l f), <- Z2Qc_inj_0, <- H. ring.
      * intros H'. apply Qclt_minus_iff in H'.
        rewrite H, Z2Qc_inj_0 in H'. by destruct (Qclt_not_eq _ _ H').
    + rewrite decide_True; [done|].
      apply Qclt_minus_iff. by rewrite <- Z2Qc_inj_0.
Qed.

(** C6 fails as stated: with [to == from == 0] and a progress of 0 the
    helper divides 0 by 0 and returns [NaN], not 0. *)
Lemma progressBetween_zero_over_zero :
  calculateProgressBetweenKeys zero zero zero = NaN
  /\ calculateProgressBetweenKeys zero zero zero <> zero
  /\ calculateProgressBetweenKeys hundred hundred hundred = NaN.
Proof. repeat split; compute_done. Qed.

End BlendFactor.

(** ** Crossfade Policy *)

Section Crossfade.
Import Num NumFacts.

Lemma isOldAnimationCanceled_Some now a :
  isOldAnimationCanceled now (Some a)
  = bool_decide (now - createdAt a - duration a < 0).
Proof.
  unfold isOldAnimationCanceled, zero. by rewrite !ofZ_sub, lt_ofZ.
Qed.

(** C4: the pass over the previous animation runs exactly when the
    resolved [from] of the current animation is 0 and, at the reference
    time, [now - previous.createdAt - previous.duration < 0]; it never runs
    when there is no previous animation; and when it does not run it
    contributes the empty object. *)
Theorem crossfadeGuard_iff now (f : number) (previous : option Animation) :
  (crossfadeGuard now (Some f) previous = true
   <-> f = zero
       /\ exists a, previous = Some a
                    /\ now - createdAt a - duration a < 0)
  /\ crossfadeGuard now (Some f) None = false
  /\ (forall f' t' p' data returnKeys,
        calculateAnimatedValues now f' t' p' previous data returnKeys
          (Some old) (Some f) None
        = if crossfadeGuard now (Some f) previous
          then forEach
                 (animatePart f' t'
                    (calculateProgressBetweenKeys f' t' p') data None)
                 returnKeys ∅
          else Normal ∅).
Proof.
  split; [split|split].
  - unfold crossfadeGuard. rewrite andb_true_iff, eq_zero.
    intros [-> H]. split; [done|].
    destruct previous as [a|]; [|done].
    rewrite isOldAnimationCanceled_Some, bool_decide_eq_true in H. eauto.
  - intros [-> (a & -> & H)]. unfold crossfadeGuard.
    apply andb_true_iff. split; [by apply eq_zero|].
    by rewrite isOldAnimationCanceled_Some, bool_decide_eq_true.
  - unfold crossfadeGuard. apply andb_false_r.
  - intros. unfold calculateAnimatedValues.
    rewrite bool_decide_eq_true_2 by done.
    by destruct (crossfadeGuard now (Some f) previous).
Qed.

End Crossfade.

(** ** Progress Resolver: the bracketing keys *)

Section Bracket.
Import Num NumFacts.

Lemma scanKeys_none keys p i rest ft :
  Forall (fun k => (p >=? ofZ k)%num = false) rest ->
  scanKeys keys p i rest ft = ft.
Proof.
  intros H. revert i ft.
  induction H as [|k rest Hk _ IH]; intros i ft; simpl; [done|].
  by rewrite Hk, IH.
Qed.

(** The loop ends on the last key that the progress has reached. *)
Lemma scanKeys_last keys p i r1 k r2 ft :
  (p >=? ofZ k)%num = true ->
  Forall (fun k' => (p >=? ofZ k')%num = false) r2 ->
  scanKeys keys p i (r1 ++ k :: r2) ft
  = (ofZ k,
     match keys !! S (i + length r1) with
     | Some next => ofZ next
     | None => hundred
     end).
Proof.
  intros Hk Hr2. revert i ft.
  induction r1 as [|k1 r1 IH]; intros i ft; simpl.
  - rewrite Hk, scanKeys_none by done. by rewrite Nat.add_0_r.
  - rewrite IH. by rewrite Nat.add_succ_r.
Qed.

Lemma split_at_last {A} (P : A -> Prop) `{!forall a, Decision (P a)} l :
  Exists P l ->
  exists r1 k r2, l = r1 ++ k :: r2 /\ P k /\ Forall (fun a => ~ P a) r2.
Proof.
  induction l as [|a l IH]; intros Hex; [by apply Exists_nil in Hex|].
  destruct (decide (Exists P l)) as [Hl|Hl].
  - destruct (IH Hl) as (r1 & k & r2 & -> & Hk & Hr2).
    by exists (a :: r1), k, r2.
  - apply Exists_cons in Hex as [Ha|Ha]; [|done].
    exists [], a, l. split_and!; [done..|]. by apply not_Exists_Forall.
Qed.

Lemma filter_all {A} (P : A -> Prop) `{!forall a, Decision (P a)} l :
  Forall P l -> filter P l = l.
Proof.
  induction 1 as [|a l Ha _ IH]; [done|].
  by rewrite filter_cons_True, IH.
Qed.

Lemma filter_none {A} (P : A -> Prop) `{!forall a, Decision (P a)} l :
  Forall (fun a => ~ P a) l -> filter P l = [].
Proof.
  induction 1 as [|a l Ha _ IH]; [done|].
  by rewrite filter_cons_False.
Qed.

Lemma foldr_min_sorted k l :
  StronglySorted Z.lt (k :: l) -> foldr Z.min k l = k.
Proof.
  intros H. apply StronglySorted_cons in H as [H _].
  induction H as [|a l Ha _ IH]; simpl; [done|]. rewrite IH. lia.
Qed.

Lemma foldr_max_sorted h l k :
  Forall (fun a => a < k) (h :: l) ->
  foldr Z.max h (l ++ [k]) = k.
Proof.
  intros H. apply Forall_cons in H as [Hh H].
  induction H as [|a l Ha _ IH]; simpl; [lia|]. rewrite IH. lia.
Qed.

(** The shape of a sorted table around one of its keys. *)
Lemma sorted_around r1 k r2 :
  StronglySorted Z.lt (r1 ++ k :: r2) ->
  Forall (fun a => a < k) r1 /\ Forall (fun a => k < a) r2
  /\ StronglySorted Z.lt (k :: r2).
Proof.
  intros H. split_and!.
  - apply Forall_forall. intros a Ha.
    apply (StronglySorted_app_1_elem_of _ _ _ a k H Ha). by left.
  - apply StronglySorted_app_1_r in H.
    by apply StronglySorted_cons in H as [H _].
  - by apply StronglySorted_app_1_r in H.
Qed.

Lemma spec_from_at_last p r1 k r2 :
  StronglySorted Z.lt (r1 ++ k :: r2) ->
  (p >=? ofZ k)%num = true ->
  Forall (fun k' => (p >=? ofZ k')%num = false) r2 ->
  spec_from (r1 ++ k :: r2) p = k.
Proof.
  intros Hs Hk Hr2. unfold spec_from.
  destruct (sorted_around _ _ _ Hs) as (H1 & _ & _).
  rewrite filter_app, filter_cons_True by done.
  rewrite (filter_none _ r2)
    by (eapply Forall_impl; [exact Hr2|]; simpl; congruence).
  rewrite filter_all.
  - destruct r1 as [|h r1]; [done|]. simpl. by apply foldr_max_sorted.
  - eapply Forall_impl; [exact H1|]. simpl. intros a Ha.
    apply (ge_ofZ_mono p k); [done|lia].
Qed.

Lemma spec_to_after r1 k r2 :
  StronglySorted Z.lt (r1 ++ k :: r2) ->
  spec_to (r1 ++ k :: r2) k = default 100 (head r2).
Proof.
  intros Hs. unfold spec_to.
  destruct (sorted_around _ _ _ Hs) as (H1 & H2 & H3).
  rewrite filter_app, filter_cons_False by lia.
  rewrite (filter_none _ r1)
    by (eapply Forall_impl; [exact H1|]; simpl; lia).
  rewrite filter_all by done. simpl.
  destruct r2 as [|k2 r2]; [done|]. simpl.
  apply foldr_min_sorted. by apply StronglySorted_cons in H3 as [_ H3].
Qed.

Lemma bracketKeys_none keys p :
  Forall (fun k => (p >=? ofZ k)%num = false) keys ->
  bracketKeys keys p = (zero, NumberOfKey (keys !! 0%nat))
  /\ spec_from keys p = 0.
Proof.
  intros H. unfold bracketKeys, spec_from. rewrite scanKeys_none by done.
  rewrite filter_none; [done|].
  eapply Forall_impl; [exact H|]. simpl. congruence.
Qed.

Lemma bracketKeys_some keys p :
  StronglySorted Z.lt keys ->
  Exists (fun k => (p >=? ofZ k)%num = true) keys ->
  bracketKeys keys p
  = (ofZ (spec_from keys p), ofZ (spec_to keys (spec_from keys p))).
Proof.
  intros Hs Hex.
  apply split_at_last in Hex as (r1 & k & r2 & -> & Hk & Hr2); [|apply _].
  assert (Forall (fun k' => (p >=? ofZ k')%num = false) r2) as Hr2'.
  { eapply Forall_impl; [exact Hr2|]. simpl. intros a.
    by destruct (p >=? ofZ a)%num. }
  unfold bracketKeys. rewrite scanKeys_last by done.
  rewrite spec_from_at_last, spec_to_after by done. f_equal.
  replace (S (0 + length r1)) with (length r1 + 1)%nat by lia.
  rewrite lookup_app_r by lia.
  replace (length r1 + 1 - length r1)%nat with 1%nat by lia.
  simpl. by destruct r2.
Qed.

End Bracket.

Section BracketClaims.
Import Num NumFacts.

(** C3, as amended: for a table whose keys are unique and enumerated in
    ascending order, [from] is the greatest key less than or equal to the
    progress, or 0 if there is none; when there is such a key, [to] is the
    key immediately after [from], or 100 if [from] is the last key; when
    there is none, [to] is the first key of the table ([NaN] for a table
    without keys). *)
Theorem getAnimationKeys_brackets now a (data : AnimationData) ty :
  StronglySorted Z.lt data.*1 ->
  let r := getAnimationKeys now (Some a) (Some data) ty in
  progress r = progressOf now a ty
  /\ from r = ofZ (spec_from data.*1 (progress r))
  /\ (Exists (fun k => (progress r >=? ofZ k)%num = true) data.*1 ->
      to r = ofZ (spec_to data.*1 (spec_from data.*1 (progress r))))
  /\ (Forall (fun k => (progress r >=? ofZ k)%num = false) data.*1 ->
      to r = NumberOfKey (data.*1 !! 0%nat)).
Proof.
  intros Hs. simpl.
  set (p := progressOf now a ty).
  destruct (decide (Exists (fun k => (p >=? ofZ k)%num = true) data.*1))
    as [Hex|Hex].
  - rewrite (bracketKeys_some _ p Hs Hex). simpl. split_and!; try done.
    intros Hall. apply Exists_exists in Hex as (k & Hin & Hk).
    rewrite Forall_forall in Hall. specialize (Hall k Hin). congruence.
  - assert (Forall (fun k => (p >=? ofZ k)%num = false) data.*1) as Hall.
    { apply not_Exists_Forall in Hex; [|apply _].
      eapply Forall_impl; [exact Hex|]. simpl. intros k.
      by destruct (p >=? ofZ k)%num. }
    destruct (bracketKeys_none _ p Hall) as [-> E]. simpl.
    rewrite E. split_and!; done.
Qed.

Lemma getAnimationKeys_brackets_witness :
  let data : AnimationData := [(0, ∅); (40, ∅); (60, ∅)] in
  let a := mkAnimation "attack" 1000 1000 None in
  let r := getAnimationKeys 1500 (Some a) (Some data) None in
  from r = ofZ 40 /\ to r = ofZ 60.
Proof.
  intros data a r.
  destruct (getAnimationKeys_brackets 1500 a data None) as (_ & Hf & Ht & _).
  { compute_done. }
  fold r in Hf, Ht. rewrite Hf, Ht.
  - split; compute_done.
  - compute_done.
Defined.

(** C3 fails as stated: before the creation instant the progress is below
    every key, [from] is 0 and [to] is the first key, here 0 again, not
    the key after 0. *)
Lemma to_is_first_key_before_creation :
  let data : AnimationData := [(0, ∅); (40, ∅)] in
  let a := mkAnimation "attack" 1000 1000 None in
  let r := getAnimationKeys 750 (Some a) (Some data) None in
  StronglySorted Z.lt data.*1
  /\ progress r = ofZ (-25)
  /\ from r = ofZ 0
  /\ spec_from data.*1 (progress r) = 0
  /\ spec_to data.*1 0 = 40
  /\ to r = ofZ 0
  /\ to r <> ofZ (spec_to data.*1 (spec_from data.*1 (progress r))).
Proof. split_and!; compute_done. Qed.

End BracketClaims.

(** ** Transform Blender and engine: one pass *)

Section Pass.

Lemma animatePart_Some f t pb data ov m p :
  animatePart f t pb (Some data) ov m p
  = Normal (<[p := partValue f t pb data ov p]> m).
Proof.
  unfold animatePart, fromValuesOf, partAt, partValue; simpl.
  destruct (ov ≫= (.!! p)); simpl; by rewrite insert_insert_eq.
Qed.

(** Without a table the first part already fails: [animationData[to]] is
    read off [undefined]. *)
Lemma animatePart_None f t pb ov m p :
  animatePart f t pb None ov m p = Throw TypeError.
Proof.
  unfold animatePart, fromValuesOf, partAt; simpl.
  by destruct (ov ≫= (.!! p)).
Qed.

Lemma forEach_animatePart_Some f t pb data ov returnKeys m :
  forEach (animatePart f t pb (Some data) ov) returnKeys m
  = Normal (foldl (fun m p => <[p := partValue f t pb data ov p]> m)
              m returnKeys).
Proof.
  revert m. induction returnKeys as [|p l IH]; intros m; simpl; [done|].
  rewrite animatePart_Some. simpl. apply IH.
Qed.

Lemma forEach_animatePart_None f t pb ov returnKeys m :
  returnKeys <> [] ->
  forEach (animatePart f t pb None ov) returnKeys m = Throw TypeError.
Proof.
  destruct returnKeys as [|p l]; [done|]. intros _. simpl.
  by rewrite animatePart_None.
Qed.

Lemma lookup_foldl_insert {V} (g : string -> V) l (m : gmap string V) p :
  foldl (fun m p => <[p := g p]> m) m l !! p
  = if decide (p ∈ l) then Some (g p) else m !! p.
Proof.
  revert m. induction l as [|q l IH]; intros m; simpl.
  - destruct (decide (p ∈ [])) as [H|_]; [by apply elem_of_nil in H|done].
  - rewrite IH.
    destruct (decide (p ∈ l)) as [Hin|Hin],
             (decide (p ∈ q :: l)) as [Hin'|Hin']; try done.
    + destruct Hin'. by right.
    + apply elem_of_cons in Hin' as [->|?]; [|done]. apply lookup_insert_eq.
    + apply lookup_insert_ne. intros ->. apply Hin'. by left.
Qed.

Lemma calculateAnimatedValues_old now f t p a data returnKeys bf ov :
  calculateAnimatedValues now f t p a data returnKeys (Some old) bf ov
  = if crossfadeGuard now bf a
    then forEach
           (animatePart f t (calculateProgressBetweenKeys f t p) data ov)
           returnKeys ∅
    else Normal ∅.
Proof.
  unfold calculateAnimatedValues. rewrite bool_decide_eq_true_2 by done.
  by destruct (crossfadeGuard now bf a).
Qed.

Lemma calculateAnimatedValues_new now f t p a data returnKeys bf ov :
  calculateAnimatedValues now f t p a data returnKeys (Some new) bf ov
  = forEach (animatePart f t (calculateProgressBetweenKeys f t p) data ov)
      returnKeys ∅.
Proof.
  unfold calculateAnimatedValues. by rewrite bool_decide_eq_false_2.
Qed.

(** A pass that runs on a table that is there returns a transform for
    every requested part. *)
Lemma pass_lookup f t pb data ov returnKeys p :
  p ∈ returnKeys ->
  transformOf (forEach (animatePart f t pb (Some data) ov) returnKeys ∅) p
  = Normal (Some (partValue f t pb data ov p)).
Proof.
  intros Hin. rewrite forEach_animatePart_Some. unfold transformOf; simpl.
  by rewrite lookup_foldl_insert, decide_True.
Qed.

End Pass.

(** ** Animation Interpolation Engine *)

Section EngineFacts.

Context (animations : gmap string AnimationData).

(** The transform a call returns for a requested part, case by case. *)
Lemma engine_transform now c previous returnKeys p :
  p ∈ returnKeys ->
  let data := animationDataOf animations (Some c) in
  let odata := animationDataOf animations previous in
  let k := getAnimationKeys now (Some c) data None in
  let ko := getAnimationKeys now previous odata (Some old) in
  let pb := calculateProgressBetweenKeys (from k) (to k) (progress k) in
  let pbo := calculateProgressBetweenKeys (from ko) (to ko) (progress ko) in
  transformOf (getAnimationValues animations now (Some c) previous returnKeys) p
  = match data with
    | None => Throw TypeError
    | Some d =>
        if crossfadeGuard now (Some (from k)) previous then
          match odata with
          | None => Throw TypeError
          | Some od =>
              Normal (Some
                (blend (partValue (from ko) (to ko) pbo od None p)
                   (default emptyValues (frameAt d (to k) ≫= (.!! p)))
                   pb))
          end
        else Normal (Some (partValue (from k) (to k) pb d None p))
    end.
Proof.
  intros Hin data odata k ko pb pbo.
  assert (returnKeys <> []) as Hne by (intros ->; by apply elem_of_nil in Hin).
  unfold getAnimationValues.
  rewrite bool_decide_eq_false_2 by (by destruct returnKeys).
  rewrite bool_decide_eq_false_2 by done.
  cbv zeta. cbn [orb]. fold data odata. fold k ko.
  clearbody k ko data odata.
  rewrite calculateAnimatedValues_old. fold pbo.
  destruct (crossfadeGuard now (Some (from k)) previous).
  - destruct odata as [od|].
    + rewrite forEach_animatePart_Some. cbn [mbind completion_bind].
      rewrite calculateAnimatedValues_new. fold pb.
      destruct data as [d|].
      * rewrite pass_lookup by done. do 2 f_equal.
        unfold partValue at 1. cbn [mbind option_bind].
        by rewrite lookup_foldl_insert, decide_True.
      * by rewrite forEach_animatePart_None.
    + rewrite forEach_animatePart_None by done. by destruct data.
  - cbn [mbind completion_bind].
    rewrite calculateAnimatedValues_new. fold pb.
    destruct data as [d|].
    + rewrite pass_lookup by done. do 2 f_equal.
    + by rewrite forEach_animatePart_None.
Qed.

End EngineFacts.

(** ** What the transform of a part depends on *)

Section Dependence.

Lemma agreeOn_keys p d1 d2 : agreeOn p d1 d2 -> d1.*1 = d2.*1.
Proof.
  induction 1 as [|e1 e2 d1 d2 [Hk _] _ IH]; [done|].
  rewrite !fmap_cons. by f_equal.
Qed.

Lemma agreeOn_assoc p d1 d2 k :
  agreeOn p d1 d2 ->
  assoc k d1 ≫= (.!! p) = assoc k d2 ≫= (.!! p).
Proof.
  induction 1 as [|[k1 f1] [k2 f2] d1 d2 [Hk Hf] _ IH]; [done|].
  simpl in *. subst k2. by case_decide.
Qed.

Lemma agreeOn_frameAt p d1 d2 n :
  agreeOn p d1 d2 ->
  frameAt d1 n ≫= (.!! p) = frameAt d2 n ≫= (.!! p).
Proof.
  intros H. unfold frameAt.
  destruct (keyOfNumber n) as [k|]; [|done]. by apply agreeOn_assoc.
Qed.

Lemma agreeOn_partValue p d1 d2 f t pb ov :
  agreeOn p d1 d2 ->
  partValue f t pb d1 ov p = partValue f t pb d2 ov p.
Proof.
  intros H. unfold partValue.
  by rewrite !(agreeOn_frameAt p d1 d2).
Qed.

Lemma tablesAgree_keys p t1 t2 now a ty :
  tablesAgree p t1 t2 ->
  getAnimationKeys now a t1 ty = getAnimationKeys now a t2 ty.
Proof.
  destruct 1 as [d1 d2 H|]; [|done].
  unfold getAnimationKeys. by rewrite (agreeOn_keys p d1 d2).
Qed.

(** C10: the transform returned for a requested part is the same in two
    calls with the same descriptors and reference time whose keyframe
    tables, for the current and for the previous animation, have the same
    keys and the same entries for that part, whatever the entries for
    other parts and whichever other parts are requested; the two calls
    also throw in the same cases. *)
Theorem transform_depends_on_own_entries
    (animations1 animations2 : gmap string AnimationData) now
    (current previous : option Animation)
    (returnKeys1 returnKeys2 : list string) (p : string) :
  p ∈ returnKeys1 -> p ∈ returnKeys2 ->
  tablesAgree p (animationDataOf animations1 current)
    (animationDataOf animations2 current) ->
  tablesAgree p (animationDataOf animations1 previous)
    (animationDataOf animations2 previous) ->
  transformOf (getAnimationValues animations1 now current previous returnKeys1) p
  = transformOf
      (getAnimationValues animations2 now current previous returnKeys2) p.
Proof.
  intros Hin1 Hin2 Hc Hp.
  destruct current as [c|].
  - rewrite !engine_transform by done.
    rewrite <- (tablesAgree_keys p _ _ now (Some c) None Hc).
    rewrite <- (tablesAgree_keys p _ _ now previous (Some old) Hp).
    destruct Hc as [d1 d2 Hd|]; [|done].
    destruct (crossfadeGuard _ _ _).
    + destruct Hp as [od1 od2 Hod|]; [|done].
      by rewrite (agreeOn_partValue p od1 od2), (agreeOn_frameAt p d1 d2).
    + by rewrite (agreeOn_partValue p d1 d2).
  - unfold getAnimationValues.
    by rewrite !(bool_decide_eq_true_2 (None = None)), !orb_true_r.
Qed.

End Dependence.

(** ** Crossfade from the superseded animation *)

Section CrossfadeValue.
Import Num NumFacts.

Context (animations : gmap string AnimationData).

(** The value a pass computes for a part when no old values are given is
    the transform of the animation taken on its own at the resolved
    progress. *)
Lemma partValue_own now a d ty p :
  let k := getAnimationKeys now (Some a) (Some d) ty in
  partValue (from k) (to k)
    (calculateProgressBetweenKeys (from k) (to k) (progress k)) d None p
  = transformAtProgress d (progressOf now a ty) p.
Proof.
  unfold getAnimationKeys, transformAtProgress, partValue.
  by destruct (bracketKeys d.*1 (progressOf now a ty)).
Qed.

Lemma crossfadeGuard_true now f o :
  f = zero -> now - createdAt o - duration o < 0 ->
  crossfadeGuard now (Some f) (Some o) = true.
Proof.
  intros -> H. unfold crossfadeGuard. apply andb_true_iff.
  split; [by apply eq_zero|].
  by rewrite isOldAnimationCanceled_Some, bool_decide_eq_true.
Qed.

(** C5: when the current animation's resolved [from] is 0 and the natural
    duration of the previous animation has not elapsed at the reference
    time, the pass over the previous animation gives every requested part
    the transform of the previous animation at the progress reached after
    [canceledAt - createdAt] milliseconds, whatever the reference time,
    and the current pass takes that value as the one to animate the part
    from. *)
Theorem crossfade_from_frozen now c o returnKeys p d od cAt :
  p ∈ returnKeys ->
  animations !! name c = Some d ->
  animations !! name o = Some od ->
  canceledAt o = Some cAt ->
  let k := getAnimationKeys now (Some c) (Some d) None in
  let ko := getAnimationKeys now (Some o) (Some od) (Some old) in
  let frozen :=
    transformAtProgress od
      (progressAfter (cAt - createdAt o) (duration o)) p in
  from k = zero ->
  now - createdAt o - duration o < 0 ->
  (exists oldAnimationValues,
     calculateAnimatedValues now (from ko) (to ko) (progress ko) (Some o)
       (Some od) returnKeys (Some old) (Some (from k)) None
     = Normal oldAnimationValues
     /\ oldAnimationValues !! p = Some frozen
     /\ fromValuesOf (from k) (Some d) (Some oldAnimationValues) p
        = Normal frozen)
  /\ transformOf
       (getAnimationValues animations now (Some c) (Some o) returnKeys) p
     = Normal (Some
         (blend frozen
            (default emptyValues (frameAt d (to k) ≫= (.!! p)))
            (calculateProgressBetweenKeys (from k) (to k) (progress k)))).
Proof.
  intros Hin Hd Hod HcAt k ko frozen Hfrom Hnow.
  assert (crossfadeGuard now (Some (from k)) (Some o) = true) as Hg
    by by apply crossfadeGuard_true.
  assert (partValue (from ko) (to ko)
            (calculateProgressBetweenKeys (from ko) (to ko) (progress ko))
            od None p = frozen) as Hfrozen.
  { unfold ko. rewrite partValue_own.
    by rewrite (progressOf_frozen now o cAt). }
  split.
  - eexists. rewrite calculateAnimatedValues_old, Hg.
    rewrite forEach_animatePart_Some. split; [done|].
    assert (forall m : gmap string AnimationDataPart,
              m !! p = Some frozen ->
              m !! p = Some frozen
              /\ fromValuesOf (from k) (Some d) (Some m) p = Normal frozen)
      as Hm.
    { intros m Hm. split; [done|]. unfold fromValuesOf. simpl.
      by rewrite Hm. }
    apply Hm. by rewrite lookup_foldl_insert, decide_True, Hfrozen.
  - rewrite engine_transform by done.
    unfold animationDataOf. rewrite Hd, Hod. fold k ko.
    by rewrite Hg, Hfrozen.
Qed.

End CrossfadeValue.

(** ** Saturation and missing entries *)

Section Saturation.
Import Num NumFacts.

Lemma lerp_at_one (f t : Qc) : lerp (Fin f) (Fin t) one = Fin t.
Proof.
  unfold lerp, one, ofZ; simpl. f_equal. rewrite Z2Qc_inj_1. ring.
Qed.


Lemma blend_at_one f t : finitePart f -> finitePart t -> blend f t one = t.
Proof.
  destruct f as [[]  []  []], t as [[] [] []];
    intros (?&?&?) (?&?&?); try done.
  unfold blend; cbn [x y rotation]. by rewrite !lerp_at_one.
Qed.


Lemma finitePart_empty : finitePart emptyValues.
Proof. by repeat split. Qed.

Lemma div_self (q : Qc) : q <> Qc_of_Z 0 -> (Fin q / Fin q)%num = one.
Proof.
  intros Hq. unfold one, ofZ. cbn [div]. rewrite decide_False by done.
  f_equal. rewrite Z2Qc_inj_1. apply Qcmult_inv_r. by rewrite <- Z2Qc_inj_0.
Qed.

Lemma progressBetween_full (f t : Z) :
  f <> t -> calculateProgressBetweenKeys (ofZ f) (ofZ t) (ofZ t) = one.
Proof.
  intros Hne. unfold calculateProgressBetweenKeys. rewrite !ofZ_sub.
  unfold ofZ. rewrite div_self by (apply Qc_of_Z_nonzero; lia). done.
Qed.

Lemma progressAfter_saturated e d :
  0 < d -> d <= e -> progressAfter e d = hundred.
Proof.
  intros Hd He. rewrite progressAfter_nonzero by lia.
  unfold hundred, ofZ, capAt. f_equal.
  case_decide as Hlt; [done|]. apply Qcnot_lt_le in Hlt.
  apply Qcle_antisym; [done|].
  assert (Qc_of_Z 100 = Qc_of_Z (100 * d) / Qc_of_Z d)%Qc as Heq.
  { rewrite Z2Qc_inj_mul. symmetry. apply Qcdiv_mult_l.
    rewrite <- Z2Qc_inj_0. apply Qc_of_Z_nonzero. lia. }
  rewrite Heq at 1. rewrite <- Z2Qc_inj_mul. unfold Qcdiv.
  apply Qcmult_le_compat_r.
  - rewrite <- Z2Qc_inj_le. lia.
  - apply Qclt_le_weak, Qcinv_pos.
    by rewrite <- Z2Qc_inj_0, <- Z2Qc_inj_lt.
Qed.

Lemma assoc_None {V} k (d : list (Z * V)) : k ∉ d.*1 -> assoc k d = None.
Proof.
  induction d as [|[k' v] d IH]; [done|]. simpl. intros Hk.
  rewrite decide_False.
  - apply IH. intros H. apply Hk. by right.
  - intros ->. apply Hk. by left.
Qed.

Lemma keyOfNumber_ofZ z : keyOfNumber (ofZ z) = Some z.
Proof. done. Qed.

Lemma frameAt_finite (d : AnimationData) p n v :
  Forall (fun e => forall v, e.2 !! p = Some v -> finitePart v) d ->
  frameAt d n ≫= (.!! p) = Some v -> finitePart v.
Proof.
  intros Hd. unfold frameAt. destruct (keyOfNumber n) as [k|]; [|done].
  simpl. induction Hd as [|[k' f] d He _ IH]; [done|]. simpl.
  case_decide; [|done]. simpl. apply He.
Qed.

(** At saturation the resolver stops on the last key and aims at 100. *)
Lemma getAnimationKeys_saturated now c (d : AnimationData) L :
  0 < duration c -> duration c <= now - createdAt c ->
  last d.*1 = Some L -> L <= 100 ->
  getAnimationKeys now (Some c) (Some d) None
  = {| from := ofZ L; to := hundred; progress := hundred |}.
Proof.
  intros Hd He HL HL100. unfold getAnimationKeys.
  rewrite progressOf_live, progressAfter_saturated by done.
  apply last_Some in HL as [r1 Hr1]. rewrite Hr1.
  unfold bracketKeys. rewrite scanKeys_last.
  - rewrite lookup_ge_None_2; [done|]. rewrite length_app. simpl. lia.
  - unfold hundred. rewrite ge_ofZ. by apply bool_decide_eq_true.
  - done.
Qed.

Lemma crossfadeGuard_later now now' bf previous :
  crossfadeGuard now bf previous = false -> now <= now' ->
  crossfadeGuard now' bf previous = false.
Proof.
  unfold crossfadeGuard. rewrite !andb_false_iff. intros [H|H] Hle; [by left|].
  right. destruct previous as [a|]; [|done].
  rewrite isOldAnimationCanceled_Some, bool_decide_eq_false in *. lia.
Qed.

End Saturation.

Section SaturationClaims.
Import Num NumFacts.

Context (animations : gmap string AnimationData).

(** C8, as amended: for a current animation with a positive duration that
    has elapsed, and a table whose keys are all below 100, the progress is
    100, [from] is the last key of the table and [to] is 100, the blend
    factor is 1, and, when no crossfade is in effect and the entries of
    the part are finite, the transform returned for a requested part is
    the entry at keyframe 100, which the table does not have: exactly
    [{x: 0, y: 0, rotation: 0}], at this and at every later reference
    time. *)
Theorem saturation_returns_to_neutral now c previous returnKeys p
    (d : AnimationData) L :
  p ∈ returnKeys ->
  animations !! name c = Some d ->
  0 < duration c ->
  duration c <= now - createdAt c ->
  last d.*1 = Some L ->
  Forall (fun k => k < 100) d.*1 ->
  Forall (fun e => forall v, e.2 !! p = Some v -> finitePart v) d ->
  crossfadeGuard now (Some (ofZ L)) previous = false ->
  forall now', now <= now' ->
    getAnimationKeys now' (Some c) (Some d) None
    = {| from := ofZ L; to := hundred; progress := hundred |}
    /\ calculateProgressBetweenKeys (ofZ L) hundred hundred = one
    /\ frameAt d hundred = None
    /\ transformOf
         (getAnimationValues animations now' (Some c) previous returnKeys) p
       = Normal (Some emptyValues).
Proof.
  intros Hin Hd Hdur He HL Hkeys Hfin Hg now' Hle.
  assert (L < 100) as HL100.
  { apply last_Some in HL as [r1 Hr1]. rewrite Hr1 in Hkeys.
    apply Forall_app in Hkeys as [_ H]. by inversion H. }
  assert (getAnimationKeys now' (Some c) (Some d) None
          = {| from := ofZ L; to := hundred; progress := hundred |}) as Hk
    by (apply getAnimationKeys_saturated; [lia|lia|done|lia]).
  assert (frameAt d hundred = None) as H100.
  { unfold frameAt, hundred. rewrite keyOfNumber_ofZ. simpl.
    apply assoc_None. intros H.
    rewrite Forall_forall in Hkeys. specialize (Hkeys _ H). lia. }
  assert (calculateProgressBetweenKeys (ofZ L) hundred hundred = one) as Hpb
    by (apply progressBetween_full; lia).
  split_and!; try done.
  rewrite engine_transform by done.
  unfold animationDataOf. rewrite Hd, Hk. cbn [from to progress].
  rewrite (crossfadeGuard_later now now') by done.
  rewrite Hpb. unfold partValue. cbn [mbind option_bind].
  rewrite H100. cbn [mbind option_bind default].
  rewrite blend_at_one; [done| |apply finitePart_empty].
  destruct (frameAt d (ofZ L) ≫= (.!! p)) as [v|] eqn:E;
    [|apply finitePart_empty].
  by apply (frameAt_finite d p (ofZ L)).
Qed.


End SaturationClaims.

(** ** The engine on the sample data *)

Section Samples.
Import Num Sample.

Lemma saturation_returns_to_neutral_witness :
  let c := mkAnimation "swing" 1000 1000 None in
  getAnimationKeys 5000 (Some c) (Some swing) None
  = {| from := ofZ 60; to := hundred; progress := hundred |}
  /\ transformOf (getAnimationValues animations 5000 (Some c) None ["head"])
       "head"
     = Normal (Some emptyValues).
Proof.
  intros c.
  destruct (saturation_returns_to_neutral animations 2000 c None ["head"]
              "head" swing 60) with (now' := 5000)
    as (Hk & _ & _ & Hv).
  - compute_done.
  - done.
  - done.
  - done.
  - done.
  - unfold swing. simpl. repeat (apply Forall_cons; split; [lia|]).
    apply Forall_nil_2.
  - unfold swing.
    repeat (apply Forall_cons;
            split; [intros v Hv; vm_compute in Hv;
                    injection Hv as <-; by vm_compute|]).
    apply Forall_nil_2.
  - done.
  - done.
  - by split.
Defined.

(** C8 fails as stated: at saturation on the table of the worked example
    [from] is 60, not 100, and the head gets the neutral transform, not
    the entry of the last key; on a table with a keyframe at 100 [from]
    and [to] are both 100, the blend factor is 0 / 0 and the head gets
    [NaN] in every field. *)
Lemma saturation_leaves_last_keyframe :
  let c := mkAnimation "swing" 1000 1000 None in
  let k := getAnimationKeys 2000 (Some c) (Some swing) None in
  let c' := mkAnimation "nod" 1000 1000 None in
  let k' := getAnimationKeys 2000 (Some c') (Some nod) None in
  (duration c <= 2000 - createdAt c
   /\ progress k = hundred /\ from k = ofZ 60 /\ from k <> hundred
   /\ frameAt swing (ofZ 60) ≫= (.!! "head") = Some (part 10 5 0)
   /\ transformOf (getAnimationValues animations 2000 (Some c) None ["head"])
        "head"
      = Normal (Some emptyValues))
  /\ (duration c' <= 2000 - createdAt c'
      /\ from k' = hundred /\ to k' = hundred
      /\ frameAt nod hundred ≫= (.!! "head") = Some (part 10 0 0)
      /\ transformOf
           (getAnimationValues animations 2000 (Some c') None ["head"])
           "head"
         = Normal (Some (mkPart NaN NaN NaN))).
Proof. split_and!; compute_done. Qed.



Lemma crossfade_from_frozen_witness :
  let c := mkAnimation "wave" 1500 1000 None in
  let o := mkAnimation "swing" 1000 1000 (Some 1500) in
  transformOf (getAnimationValues animations 1750 (Some c) (Some o) ["head"])
    "head"
  = Normal (Some (blend (partQ 10 (5 # 2) 0) emptyValues
                    (Fin (Q2Qc (1 # 2)))))
  /\ transformAtProgress swing (progressAfter (1500 - 1000) 1000) "head"
     = partQ 10 (5 # 2) 0
  /\ transformAtProgress swing (progressAfter (1750 - 1000) 1000) "head"
     = partQ (25 # 4) (25 # 8) 0.
Proof.
  intros c o.
  destruct (crossfade_from_frozen animations 1750 c o ["head"] "head"
              wave swing 1500) as [_ H]; [compute_done..|].
  rewrite H. split_and!; compute_done.
Defined.

Lemma transform_depends_on_own_entries_witness :
  let c := mkAnimation "swing" 1000 1000 None in
  transformOf (getAnimationValues animations 1500 (Some c) None ["head"])
    "head"
  = transformOf
      (getAnimationValues animations' 1500 (Some c) None
         ["armLeft"; "head"])
      "head".
Proof.
  intros c.
  apply transform_depends_on_own_entries.
  - compute_done.
  - compute_done.
  - vm_compute. repeat constructor.
  - vm_compute. constructor.
Defined.

End Samples.

(** ** The tick loop *)

Section TickLoop.
Import Num NumFacts.

Lemma newGame_state t0 t1 :
  loopTimeout (newGame t0 t1).1 = Fin tickInterval
  /\ start (newGame t0 t1).1 = ofZ t1
  /\ time (newGame t0 t1).1 = Fin (Qc_of_Z 0)
  /\ (newGame t0 t1).2 = Fin tickInterval.
Proof. done. Qed.





End TickLoop.

(** * Further properties of the engine *)

Section EngineRuns.
Import Num NumFacts.

Context (animations : gmap string AnimationData).

(** A call for a present animation and at least one part is the pass over
    the old animation, if the guard lets it run, followed by the pass over
    the new one. *)
Lemma getAnimationValues_run now c previous returnKeys :
  returnKeys <> [] ->
  let data := animationDataOf animations (Some c) in
  let odata := animationDataOf animations previous in
  let k := getAnimationKeys now (Some c) data None in
  let ko := getAnimationKeys now previous odata (Some old) in
  getAnimationValues animations now (Some c) previous returnKeys
  = oldAnimationValues ←
      (if crossfadeGuard now (Some (from k)) previous
       then forEach
              (animatePart (from ko) (to ko)
                 (calculateProgressBetweenKeys (from ko) (to ko) (progress ko))
                 odata None)
              returnKeys ∅
       else Normal ∅);
    forEach
      (animatePart (from k) (to k)
         (calculateProgressBetweenKeys (from k) (to k) (progress k))
         data (Some oldAnimationValues))
      returnKeys ∅.
Proof.
  intros Hne data odata k ko. unfold getAnimationValues.
  rewrite bool_decide_eq_false_2 by (by destruct returnKeys).
  rewrite bool_decide_eq_false_2 by done.
  cbv zeta. cbn [orb]. fold data odata. fold k ko.
  rewrite calculateAnimatedValues_old.
  destruct (crossfadeGuard now (Some (from k)) previous).
  - destruct (forEach _ returnKeys ∅) as [ov|e]; [|done].
    cbn [mbind completion_bind]. apply calculateAnimatedValues_new.
  - cbn [mbind completion_bind]. apply calculateAnimatedValues_new.
Qed.

Lemma getAnimationValues_nothing now animation previous returnKeys :
  animation = None \/ returnKeys = [] ->
  getAnimationValues animations now animation previous returnKeys = Normal ∅.
Proof.
  intros [-> | ->]; unfold getAnimationValues.
  - by rewrite (bool_decide_eq_true_2 (None = None)), orb_true_r.
  - by rewrite bool_decide_eq_true_2.
Qed.

(** X1: a call throws exactly when there is a current animation and at
    least one requested part, and either the current animation has no
    keyframe table, or the pass over the previous animation runs and the
    previous animation has no keyframe table; in every other case it
    returns. *)
Theorem getAnimationValues_throws now animation previous returnKeys :
  getAnimationValues animations now animation previous returnKeys
  = Throw TypeError
  <-> animation <> None /\ returnKeys <> []
      /\ (animationDataOf animations animation = None
          \/ (crossfadeGuard now
                (Some (from (getAnimationKeys now animation
                               (animationDataOf animations animation) None)))
                previous = true
              /\ animationDataOf animations previous = None)).
Proof.
  destruct animation as [c|];
    [|rewrite getAnimationValues_nothing by (by left); intuition (try done; try congruence)].
  destruct (decide (returnKeys = [])) as [->|Hne];
    [rewrite getAnimationValues_nothing by (by right); intuition (try done; try congruence)|].
  rewrite getAnimationValues_run by done.
  destruct (crossfadeGuard now _ previous).
  - destruct (animationDataOf animations previous) as [od|].
    + rewrite forEach_animatePart_Some. cbn [mbind completion_bind].
      destruct (animationDataOf animations (Some c)) as [d|].
      * rewrite forEach_animatePart_Some. intuition (try done; try congruence).
      * rewrite forEach_animatePart_None by done. intuition (try done; try congruence).
    + rewrite forEach_animatePart_None by done. cbn [mbind completion_bind].
      intuition (try done; try congruence).
  - cbn [mbind completion_bind].
    destruct (animationDataOf animations (Some c)) as [d|].
    + rewrite forEach_animatePart_Some. intuition (try done; try congruence).
    + rewrite forEach_animatePart_None by done. intuition (try done; try congruence).
Qed.

(** X2: the object a call returns has a transform for a part exactly when
    there is a current animation and the part is among the requested
    ones. *)
Theorem getAnimationValues_parts now animation previous returnKeys m :
  getAnimationValues animations now animation previous returnKeys = Normal m ->
  forall p, is_Some (m !! p) <-> animation <> None /\ p ∈ returnKeys.
Proof.
  intros Hm p.
  destruct animation as [c|];
    [|rewrite getAnimationValues_nothing in Hm by (by left);
      injection Hm as <-; rewrite lookup_empty, is_Some_alt; intuition (try done; try congruence)].
  destruct (decide (returnKeys = [])) as [->|Hne].
  { rewrite getAnimationValues_nothing in Hm by (by right).
    injection Hm as <-. rewrite lookup_empty, is_Some_alt, elem_of_nil.
    intuition (try done; try congruence). }
  rewrite getAnimationValues_run in Hm by done.
  destruct (if crossfadeGuard now _ previous then _ else _) as [ov|e];
    [|done].
  cbn [mbind completion_bind] in Hm.
  destruct (animationDataOf animations (Some c)) as [d|];
    [|by rewrite forEach_animatePart_None in Hm].
  rewrite forEach_animatePart_Some in Hm. injection Hm as <-.
  rewrite lookup_foldl_insert, lookup_empty.
  case_decide; rewrite is_Some_alt; intuition (try done; try congruence).
Qed.

Lemma foldl_insert_ext {V} (g : string -> V) l1 l2 :
  (forall p, p ∈ l1 <-> p ∈ l2) ->
  foldl (fun m p => <[p := g p]> m) (∅ : gmap string V) l1
  = foldl (fun m p => <[p := g p]> m) ∅ l2.
Proof.
  intros H. apply map_eq. intros p. rewrite !lookup_foldl_insert.
  destruct (decide (p ∈ l1)) as [H1|H1], (decide (p ∈ l2)) as [H2|H2];
    try done.
  - destruct H2. by apply H.
  - destruct H1. by apply H.
Qed.

Lemma pass_ext f t pb data ov l1 l2 :
  (forall p, p ∈ l1 <-> p ∈ l2) ->
  forEach (animatePart f t pb data ov) l1 ∅
  = forEach (animatePart f t pb data ov) l2 ∅.
Proof.
  intros H. destruct data as [d|].
  - rewrite !forEach_animatePart_Some. f_equal. by apply foldl_insert_ext.
  - destruct l1 as [|p1 l1], l2 as [|p2 l2]; try done.
    + destruct (not_elem_of_nil p2). apply H. by left.
    + destruct (not_elem_of_nil p1). apply H. by left.
    + by rewrite !forEach_animatePart_None.
Qed.

(** X3: what a call returns depends on which parts are requested, not on
    their order in the list nor on how often each is listed. *)
Theorem getAnimationValues_same_parts now animation previous l1 l2 :
  (forall p, p ∈ l1 <-> p ∈ l2) ->
  getAnimationValues animations now animation previous l1
  = getAnimationValues animations now animation previous l2.
Proof.
  intros H.
  destruct animation as [c|];
    [|by rewrite !getAnimationValues_nothing by (by left)].
  destruct (decide (l1 = [])) as [->|Hne1].
  { destruct l2 as [|p2 l2]; [done|].
    destruct (not_elem_of_nil p2). apply H. by left. }
  assert (l2 <> []) as Hne2.
  { intros ->. destruct l1 as [|p1 l1]; [done|].
    destruct (not_elem_of_nil p1). apply H. by left. }
  rewrite !getAnimationValues_run by done.
  destruct (crossfadeGuard now _ previous).
  - rewrite (pass_ext _ _ _ _ None l1 l2 H).
    destruct (forEach _ l2 ∅) as [ov|e]; [|done].
    cbn [mbind completion_bind]. by apply pass_ext.
  - cbn [mbind completion_bind]. by apply pass_ext.
Qed.

Lemma getAnimationValues_guard_false now c previous returnKeys :
  crossfadeGuard now
    (Some (from (getAnimationKeys now (Some c)
                   (animationDataOf animations (Some c)) None)))
    previous = false ->
  getAnimationValues animations now (Some c) previous returnKeys
  = getAnimationValues animations now (Some c) None returnKeys.
Proof.
  intros Hg.
  destruct (decide (returnKeys = [])) as [->|Hne];
    [by rewrite !getAnimationValues_nothing by (by right)|].
  rewrite !getAnimationValues_run by done. rewrite Hg.
  unfold crossfadeGuard. cbn [isOldAnimationCanceled].
  by rewrite andb_false_r.
Qed.

(** X4: once the resolved [from] of the current animation is not 0, the
    previous animation has no influence on what a call returns, whatever it
    is and whether or not it has a keyframe table. *)
Theorem crossfade_only_before_first_keyframe now c previous returnKeys :
  from (getAnimationKeys now (Some c) (animationDataOf animations (Some c))
          None) <> zero ->
  getAnimationValues animations now (Some c) previous returnKeys
  = getAnimationValues animations now (Some c) None returnKeys.
Proof.
  intros Hf. apply getAnimationValues_guard_false.
  unfold crossfadeGuard. apply andb_false_iff. left.
  destruct (_ ==? zero)%num eqn:E; [|done]. by apply eq_zero in E.
Qed.

(** X5: once the natural duration of the previous animation has elapsed, it
    has no influence on what a call returns, at that reference time and at
    every later one. *)
Theorem expired_animation_is_ignored now o c returnKeys :
  createdAt o + duration o <= now ->
  forall now', now <= now' ->
    getAnimationValues animations now' (Some c) (Some o) returnKeys
    = getAnimationValues animations now' (Some c) None returnKeys.
Proof.
  intros He now' Hle. apply getAnimationValues_guard_false.
  unfold crossfadeGuard. apply andb_false_iff. right.
  rewrite isOldAnimationCanceled_Some. apply bool_decide_eq_false. lia.
Qed.


End EngineRuns.

(** ** Progress and interpolation over time *)

Section Interpolation.
Import Num NumFacts.


Lemma capAt_mono hi v v' : (v <= v')%Qc -> (capAt hi v <= capAt hi v')%Qc.
Proof.
  intros H. unfold capAt.
  destruct (decide (hi < v)%Qc) as [Hv|Hv],
           (decide (hi < v')%Qc) as [Hv'|Hv']; try done.
  - destruct Hv'. by eapply Qclt_le_trans.
  - by apply Qcnot_lt_le.
Qed.

Lemma ratio_mono e e' d :
  e <= e' -> 0 < d ->
  (Qc_of_Z 100 * Qc_of_Z e / Qc_of_Z d
   <= Qc_of_Z 100 * Qc_of_Z e' / Qc_of_Z d)%Qc.
Proof.
  intros He Hd. unfold Qcdiv. apply Qcmult_le_compat_r.
  - apply Qcmult_le_mono_nonneg_l.
    + by rewrite <- Z2Qc_inj_0, <- Z2Qc_inj_le.
    + by rewrite <- Z2Qc_inj_le.
  - apply Qclt_le_weak, Qcinv_pos. by rewrite <- Z2Qc_inj_0, <- Z2Qc_inj_lt.
Qed.

(** X7: the progress of a live animation with a positive duration never
    decreases as the reference time advances. *)
Theorem progress_never_decreases a now now' :
  0 < duration a -> now <= now' ->
  (progressOf now' a None >=? progressOf now a None)%num = true.
Proof.
  intros Hd Hle. rewrite !progressOf_live, !progressAfter_nonzero by lia.
  rewrite ge_Fin. apply bool_decide_eq_true.
  apply capAt_mono, ratio_mono; lia.
Qed.

Lemma progressBetween_ne (f t p : Qc) :
  t <> f ->
  calculateProgressBetweenKeys (Fin f) (Fin t) (Fin p)
  = Fin (capAt (Qc_of_Z 1) ((p - f) / (t - f))%Qc).
Proof.
  intros Hne. unfold calculateProgressBetweenKeys. simpl.
  rewrite decide_False.
  - unfold one, ofZ, capAt. rewrite gt_Fin.
    by case_bool_decide; case_decide.
  - rewrite Z2Qc_inj_0. intros E. apply Hne.
    rewrite <- (Qcplus_0_l f), <- E. ring.
Qed.

Lemma progressBetween_unit (f t q : Qc) :
  (f <= q)%Qc -> (f < t)%Qc ->
  exists r, calculateProgressBetweenKeys (Fin f) (Fin t) (Fin q) = Fin r
            /\ (Qc_of_Z 0 <= r)%Qc /\ (r <= Qc_of_Z 1)%Qc.
Proof.
  intros Hq Ht.
  rewrite progressBetween_ne
    by (intros ->; by destruct (Qclt_not_eq _ _ Ht)).
  eexists. split; [done|]. split; [|apply capAt_le].
  assert (Qc_of_Z 0 <= (q - f) / (t - f))%Qc as H0.
  { rewrite Z2Qc_inj_0. unfold Qcdiv. apply Qcmult_nonneg_nonneg.
    - by apply Qcle_minus_iff in Hq.
    - apply Qclt_le_weak, Qcinv_pos. by apply Qclt_minus_iff in Ht. }
  unfold capAt. case_decide; [|done]. by rewrite <- Z2Qc_inj_le.
Qed.

Lemma progressOf_range now a :
  0 < duration a -> createdAt a <= now ->
  exists q, progressOf now a None = Fin q
            /\ (Qc_of_Z 0 <= q)%Qc /\ (q <= Qc_of_Z 100)%Qc.
Proof.
  intros Hd Hc. rewrite progressOf_live, progressAfter_nonzero by lia.
  eexists. split; [done|]. split; [|apply capAt_le].
  unfold capAt. case_decide; [by rewrite <- Z2Qc_inj_le|].
  apply ratio_nonneg; lia.
Qed.

Lemma ge_Fin_false (q : Qc) k :
  (Fin q >=? ofZ k)%num = false -> (q < Qc_of_Z k)%Qc.
Proof.
  unfold ofZ. rewrite ge_Fin, bool_decide_eq_false. apply Qcnot_le_lt.
Qed.

Lemma ge_Fin_true (q : Qc) k :
  (Fin q >=? ofZ k)%num = true -> (Qc_of_Z k <= q)%Qc.
Proof. unfold ofZ. by rewrite ge_Fin, bool_decide_eq_true. Qed.

(** The keys that bracket a progress between 0 and 100 in a table with
    keys below 100: [from] is at most the progress and below [to]. *)
Lemma bracketKeys_around (keys : list Z) (q : Qc) :
  keys <> [] -> Forall (fun k => k < 100) keys ->
  (Qc_of_Z 0 <= q)%Qc -> (q <= Qc_of_Z 100)%Qc ->
  exists f t : Z,
    bracketKeys keys (Fin q) = (ofZ f, ofZ t)
    /\ (Qc_of_Z f <= q)%Qc /\ (Qc_of_Z f < Qc_of_Z t)%Qc.
Proof.
  intros Hne Hkeys H0 H100.
  destruct (decide (Exists (fun k => (Fin q >=? ofZ k)%num = true) keys))
    as [Hex|Hex].
  - apply split_at_last in Hex as (r1 & k & r2 & -> & Hk & Hr2); [|apply _].
    assert (Forall (fun k' => (Fin q >=? ofZ k')%num = false) r2) as Hr2'.
    { eapply Forall_impl; [exact Hr2|]. simpl. intros a.
      by destruct (Fin q >=? ofZ a)%num. }
    unfold bracketKeys. rewrite scanKeys_last by done.
    replace (S (0 + length r1)) with (length r1 + 1)%nat by lia.
    rewrite lookup_app_r by lia.
    replace (length r1 + 1 - length r1)%nat with 1%nat by lia.
    apply ge_Fin_true in Hk.
    destruct r2 as [|k' r2]; simpl.
    + exists k, 100. split_and!; [done..|].
      rewrite <- Z2Qc_inj_lt.
      apply Forall_app in Hkeys as [_ Hkeys]. by inversion Hkeys.
    + exists k, k'. split_and!; [done..|].
      eapply Qcle_lt_trans; [exact Hk|].
      apply ge_Fin_false. by inversion Hr2'.
  - assert (Forall (fun k => (Fin q >=? ofZ k)%num = false) keys) as Hall.
    { apply not_Exists_Forall in Hex; [|apply _].
      eapply Forall_impl; [exact Hex|]. simpl. intros k.
      by destruct (Fin q >=? ofZ k)%num. }
    destruct (bracketKeys_none _ _ Hall) as [-> _].
    destruct keys as [|k0 keys]; [done|]. simpl.
    exists 0, k0. split_and!; [done..|].
    eapply Qcle_lt_trans; [exact H0|].
    apply ge_Fin_false. by inversion Hall.
Qed.

(** X8: for an animation with a positive duration, at or after its
    creation instant, and a keyframe table that is not empty and whose keys
    are all below 100, the blend factor the engine interpolates with is a
    finite number between 0 and 1. *)
Theorem blend_factor_in_unit_interval now a (d : AnimationData) :
  0 < duration a -> createdAt a <= now ->
  d <> [] -> Forall (fun k => k < 100) d.*1 ->
  let k := getAnimationKeys now (Some a) (Some d) None in
  exists r,
    calculateProgressBetweenKeys (from k) (to k) (progress k) = Fin r
    /\ (Qc_of_Z 0 <= r)%Qc /\ (r <= Qc_of_Z 1)%Qc.
Proof.
  intros Hd Hc Hne Hkeys. simpl.
  destruct (progressOf_range now a Hd Hc) as (q & -> & H0 & H100).
  destruct (bracketKeys_around d.*1 q) as (f & t & -> & Hf & Hft);
    [by destruct d|done..|].
  cbn [from to progress]. by apply progressBetween_unit.
Qed.




End Interpolation.

(** ** Keyframes and the start of an animation *)

Section Keyframes.
Import Num NumFacts.

Lemma lerp_at_zero (f t : Qc) : lerp (Fin f) (Fin t) zero = Fin f.
Proof.
  unfold lerp, zero, ofZ; simpl. f_equal. rewrite Z2Qc_inj_0. ring.
Qed.

Lemma blend_at_zero f t : finitePart f -> finitePart t -> blend f t zero = f.
Proof.
  destruct f as [[] [] []], t as [[] [] []];
    intros (?&?&?) (?&?&?); try done.
  unfold blend; cbn [x y rotation]. by rewrite !lerp_at_zero.
Qed.

Lemma progressBetween_start (f t : Z) :
  f <> t -> calculateProgressBetweenKeys (ofZ f) (ofZ t) (ofZ f) = zero.
Proof.
  intros Hne. unfold calculateProgressBetweenKeys. rewrite !ofZ_sub.
  rewrite Z.sub_diag. unfold ofZ. cbn [div].
  rewrite decide_False by (apply Qc_of_Z_nonzero; lia).
  assert (Qc_of_Z 0 / Qc_of_Z (t - f) = Qc_of_Z 0)%Qc as ->.
  { rewrite Z2Qc_inj_0. unfold Qcdiv. apply Qcmult_0_l. }
  done.
Qed.

Lemma assoc_Some_elem {V} k (d : list (Z * V)) v :
  assoc k d = Some v -> k ∈ d.*1.
Proof.
  induction d as [|[k' v'] d IH]; [done|]. simpl.
  case_decide as E; [intros _; subst; by left|]. intros H. right. by apply IH.
Qed.

Lemma part_finite (d : AnimationData) p n :
  Forall (fun e => forall v, e.2 !! p = Some v -> finitePart v) d ->
  finitePart (default emptyValues (frameAt d n ≫= (.!! p))).
Proof.
  intros Hd. destruct (frameAt d n ≫= (.!! p)) as [v|] eqn:E;
    [|apply finitePart_empty].
  by apply (frameAt_finite d p n).
Qed.

(** The keys around a progress that is exactly a key of an ascending
    table. *)
Lemma bracketKeys_at_key (keys : list Z) k :
  StronglySorted Z.lt keys -> k ∈ keys -> k <> 100 ->
  exists t, t <> k /\ bracketKeys keys (ofZ k) = (ofZ k, ofZ t).
Proof.
  intros Hs Hin H100.
  apply list_elem_of_split in Hin as (r1 & r2 & ->).
  destruct (sorted_around _ _ _ Hs) as (_ & Hr2 & _).
  unfold bracketKeys. rewrite scanKeys_last.
  - replace (S (0 + length r1)) with (length r1 + 1)%nat by lia.
    rewrite lookup_app_r by lia.
    replace (length r1 + 1 - length r1)%nat with 1%nat by lia.
    destruct r2 as [|k' r2]; simpl.
    + by exists 100.
    + exists k'. split; [|done]. inversion Hr2; lia.
  - rewrite ge_ofZ. by apply bool_decide_eq_true.
  - eapply Forall_impl; [exact Hr2|]. simpl. intros k' Hk'.
    rewrite ge_ofZ. apply bool_decide_eq_false. lia.
Qed.

(** X10: at a progress that is exactly a key of an ascending table, other
    than 100, with finite entries for the part, the transform of the
    animation is the entry of the part at that keyframe, or the neutral
    transform when the keyframe has none. *)
Theorem keyframe_hit_exactly (d : AnimationData) k frame p :
  StronglySorted Z.lt d.*1 ->
  assoc k d = Some frame ->
  k <> 100 ->
  Forall (fun e => forall v, e.2 !! p = Some v -> finitePart v) d ->
  transformAtProgress d (ofZ k) p = default emptyValues (frame !! p).
Proof.
  intros Hs Hk H100 Hfin.
  destruct (bracketKeys_at_key d.*1 k) as (t & Ht & Hb);
    [done|by eapply assoc_Some_elem|done|].
  unfold transformAtProgress. rewrite Hb.
  rewrite progressBetween_start by done.
  rewrite blend_at_zero by by apply part_finite.
  unfold frameAt. rewrite keyOfNumber_ofZ. simpl. by rewrite Hk.
Qed.

Lemma progressAfter_at_creation d : 0 < d -> progressAfter 0 d = zero.
Proof.
  intros Hd. rewrite progressAfter_nonzero by lia.
  unfold zero, ofZ, capAt. f_equal.
  assert (Qc_of_Z 100 * Qc_of_Z 0 / Qc_of_Z d = Qc_of_Z 0)%Qc as ->.
  { rewrite Z2Qc_inj_0. unfold Qcdiv. by rewrite Qcmult_0_r, Qcmult_0_l. }
  rewrite decide_False; [done|]. by rewrite <- Z2Qc_inj_lt.
Qed.

(** The keys around progress 0 in an ascending table of keys that are not
    negative. *)
Lemma bracketKeys_at_zero (keys : list Z) :
  keys <> [] -> StronglySorted Z.lt keys -> Forall (fun k => 0 <= k) keys ->
  exists t, t <> 0 /\ bracketKeys keys zero = (zero, ofZ t).
Proof.
  intros Hne Hs Hpos. destruct keys as [|k0 keys]; [done|].
  destruct (decide (k0 = 0)) as [->|Hk0].
  - destruct (bracketKeys_at_key (0 :: keys) 0) as (t & Ht & Hb);
      [done|by left|done|].
    by exists t.
  - exists k0. split; [done|].
    assert (0 < k0) as Hk by (inversion Hpos; lia).
    apply StronglySorted_cons in Hs as [Hs _].
    apply bracketKeys_none. constructor.
    + unfold zero. rewrite ge_ofZ. apply bool_decide_eq_false. lia.
    + eapply Forall_impl; [exact Hs|]. simpl. intros k' Hk'.
      unfold zero. rewrite ge_ofZ. apply bool_decide_eq_false. lia.
Qed.

(** X11: at the creation instant of the current animation, while the
    natural duration of the previous animation has not elapsed, the
    transform returned for a requested part is exactly the transform of the
    previous animation at the progress it had reached when it was canceled:
    the takeover starts without a jump. *)
Theorem takeover_starts_from_frozen
    (animations : gmap string AnimationData) now c o returnKeys p
    (d od : AnimationData) cAt :
  p ∈ returnKeys ->
  animations !! name c = Some d ->
  animations !! name o = Some od ->
  canceledAt o = Some cAt ->
  createdAt c = now -> 0 < duration c ->
  now - createdAt o - duration o < 0 ->
  d <> [] -> StronglySorted Z.lt d.*1 -> Forall (fun k => 0 <= k) d.*1 ->
  Forall (fun e => forall v, e.2 !! p = Some v -> finitePart v) d ->
  let frozen :=
    transformAtProgress od (progressAfter (cAt - createdAt o) (duration o)) p
  in
  finitePart frozen ->
  transformOf
    (getAnimationValues animations now (Some c) (Some o) returnKeys) p
  = Normal (Some frozen).
Proof.
  intros Hin Hd Hod HcAt Hc Hdur Ho Hne Hs Hpos Hfin frozen Hfrozen.
  destruct (bracketKeys_at_zero d.*1) as (t & Ht & Hb);
    [by destruct d|done..|].
  assert (getAnimationKeys now (Some c) (Some d) None
          = {| from := zero; to := ofZ t; progress := zero |}) as Hk.
  { unfold getAnimationKeys. rewrite progressOf_live.
    replace (now - createdAt c) with 0 by lia.
    by rewrite progressAfter_at_creation, Hb. }
  rewrite engine_transform by done.
  unfold animationDataOf. rewrite Hd, Hod, Hk. cbn [from to progress].
  rewrite crossfadeGuard_true by done.
  rewrite partValue_own, (progressOf_frozen now o cAt) by done.
  fold frozen. unfold zero at 1 2.
  rewrite progressBetween_start by done.
  rewrite blend_at_zero; [done..|]. by apply part_finite.
Qed.

End Keyframes.

(** * Further properties of the game *)

Section Schedule.
Import Num NumFacts.





End Schedule.

Section Players.

Context {Player PlayerMovement : Type} `{!PlayerMethods Player PlayerMovement}.

Lemma forEach_attackOf (keys : list string) (m : gmap string Player) :
  NoDup keys -> (forall k, k ∈ keys -> is_Some (m !! k)) ->
  exists m', forEach attackOf keys m = Normal m'
             /\ forall k, m' !! k = if decide (k ∈ keys)
                                   then handleAttack <$> m !! k
                                   else m !! k.
Proof.
  revert m. induction keys as [|a keys IH]; intros m Hnd Hin.
  - exists m. split; [done|]. intros k.
    destruct (decide (k ∈ [])) as [H|_]; [by apply elem_of_nil in H|done].
  - apply NoDup_cons in Hnd as [Ha Hnd].
    destruct (Hin a) as [p Hp]; [by left|].
    destruct (IH (<[a := handleAttack p]> m) Hnd) as (m' & Hrun & Hm').
    { intros k Hk. rewrite lookup_insert_ne; [apply Hin; by right|].
      by intros ->. }
    exists m'. split.
    { cbn [forEach].
      assert (attackOf m a = Normal (<[a := handleAttack p]> m)) as ->
        by (unfold attackOf; by rewrite Hp).
      exact Hrun. }
    intros k. rewrite Hm'.
    destruct (decide (k = a)) as [->|Hne].
    + rewrite decide_False by done. rewrite decide_True by left.
      by rewrite lookup_insert_eq, Hp.
    + rewrite lookup_insert_ne by done.
      destruct (decide (k ∈ keys)) as [Hk|Hk].
      * rewrite decide_True; [done|]. by right.
      * rewrite decide_False; [done|]. rewrite elem_of_cons. tauto.
Qed.

Lemma elem_of_objectKeys (m : gmap string Player) k :
  k ∈ objectKeys m <-> is_Some (m !! k).
Proof.
  unfold objectKeys. rewrite list_elem_of_fmap. split.
  - intros [[k' v] [-> Hin]]. apply elem_of_map_to_list in Hin. by exists v.
  - intros [v Hv]. exists (k, v). split; [done|].
    by apply elem_of_map_to_list.
Qed.

(** X14: a round of attacks does not throw, makes every player attack once
    and leaves the set of players as it was. *)
Theorem handlePlayerAttacks_all (players : gmap string Player) :
  handlePlayerAttacks players = Normal (handleAttack <$> players).
Proof.
  unfold handlePlayerAttacks.
  destruct (forEach_attackOf (objectKeys players) players)
    as (m' & -> & Hm').
  - apply NoDup_fst_map_to_list.
  - intros k. apply elem_of_objectKeys.
  - f_equal. apply map_eq. intros k. rewrite Hm', lookup_fmap.
    case_decide as Hk; [done|].
    destruct (players !! k) eqn:E; [|done].
    destruct Hk. apply elem_of_objectKeys. by rewrite E.
Qed.

(** X15: once a player is removed, its socket and its player are gone and
    all others are as before; movement, mouse direction and attack inputs
    from its socket are ignored, removing it again changes nothing, and
    spawning from its socket throws. *)
Theorem removed_player_is_gone (g : GameObjects Player) socket :
  let g' := removePlayer g socket in
  players g' !! Socket.id socket = None
  /\ sockets g' !! Socket.id socket = None
  /\ (forall k, k <> Socket.id socket ->
        players g' !! k = players g !! k /\ sockets g' !! k = sockets g !! k)
  /\ (forall playerMovement, handlePlayerMovement g' socket playerMovement = g')
  /\ (forall direction, handlePlayerMouseDirection g' socket direction = g')
  /\ (forall b, setPlayerIsAttacking g' socket b = g')
  /\ removePlayer g' socket = g'
  /\ (forall username, spawnPlayer g' socket username = Throw TypeError).
Proof.
  intros g'.
  assert (players g' !! Socket.id socket = None) as Hp
    by apply lookup_delete_eq.
  split_and!; try done.
  - apply lookup_delete_eq.
  - intros k Hk. unfold g'. simpl. by rewrite !lookup_delete_ne.
  - intros pm. unfold handlePlayerMovement. by rewrite Hp.
  - intros dir. unfold handlePlayerMouseDirection. by rewrite Hp.
  - intros b. unfold setPlayerIsAttacking. by rewrite Hp.
  - unfold g', removePlayer. simpl. by rewrite !delete_delete_eq.
  - intros u. unfold spawnPlayer. by rewrite Hp.
Qed.

Lemma withPlayer_players (g : GameObjects Player) key player k :
  is_Some (players g !! key) ->
  (is_Some (players (withPlayer g key player) !! k)
   <-> is_Some (players g !! k))
  /\ (k <> key -> players (withPlayer g key player) !! k = players g !! k)
  /\ players (withPlayer g key player) !! key = Some player
  /\ sockets (withPlayer g key player) = sockets g.
Proof.
  intros Hkey. simpl. split_and!; try done.
  - destruct (decide (k = key)) as [->|Hne].
    + rewrite lookup_insert_eq. split; [done|]. by eexists.
    + by rewrite lookup_insert_ne.
  - intros Hne. by rewrite lookup_insert_ne.
  - apply lookup_insert_eq.
Qed.

(** X16: a movement, mouse direction or attack input never adds or removes
    a player or a socket and never touches a player other than the one of
    the socket it comes from; when the socket has a player, that player is
    what the method called on it makes of it. *)
Theorem inputs_touch_one_player (g : GameObjects Player) socket
    playerMovement direction b k :
  let key := Socket.id socket in
  let changes (g' : GameObjects Player) (method : Player -> Player) :=
    sockets g' = sockets g
    /\ (is_Some (players g' !! k) <-> is_Some (players g !! k))
    /\ (k <> key -> players g' !! k = players g !! k)
    /\ players g' !! key = method <$> players g !! key in
  changes (handlePlayerMovement g socket playerMovement)
    (handleMovement playerMovement)
  /\ changes (handlePlayerMouseDirection g socket direction)
       (handleMouseDirection direction)
  /\ changes (setPlayerIsAttacking g socket b) (setIsAttacking b).
Proof.
  intros key changes.
  assert (forall method : Player -> Player,
            changes (match players g !! key with
                     | Some player => withPlayer g key (method player)
                     | None => g
                     end) method) as H.
  { intros method. unfold changes.
    destruct (players g !! key) as [player|] eqn:E; [|done].
    destruct (withPlayer_players g key (method player) k)
      as (H1 & H2 & H3 & H4); [by rewrite E|].
    done. }
  split_and!; apply H.
Qed.

(** X17: spawning from a socket that has a player returns, replaces that
    player by what [spawn] makes of it for the given name and the size of
    the map, and leaves every other player and all sockets alone; from a
    socket that has no player it throws. *)
Theorem spawnPlayer_cases (g : GameObjects Player) socket username :
  let key := Socket.id socket in
  match players g !! key with
  | Some player =>
      exists g', spawnPlayer g socket username = Normal g'
                 /\ players g' !! key
                    = Some (spawn username (mapSize g) player)
                 /\ (forall k, k <> key -> players g' !! k = players g !! k)
                 /\ sockets g' = sockets g /\ mapSize g' = mapSize g
  | None => spawnPlayer g socket username = Throw TypeError
  end.
Proof.
  intros key. unfold spawnPlayer. fold key.
  destruct (players g !! key) as [player|] eqn:E; [|done].
  eexists. split; [done|]. simpl. split_and!; try done.
  - apply lookup_insert_eq.
  - intros k Hk. by rewrite lookup_insert_ne.
Qed.

End Players.

(** * Divisions by zero in the engine *)

Section ZeroDivisions.
Import Num NumFacts.

Context (animations : gmap string AnimationData).

Lemma lerp_NaN f t : lerp f t NaN = NaN.
Proof. unfold lerp. by destruct f, t. Qed.

Lemma blend_NaN f t : blend f t NaN = mkPart NaN NaN NaN.
Proof. unfold blend. by rewrite !lerp_NaN. Qed.

(** X18: once the duration of the current animation has elapsed, if the
    last key of its keyframe table is 100 then [from] and [to] are both
    100, the blend factor is 0 / 0, and the transform returned for every
    requested part has [NaN] in its three fields, whatever the previous
    animation and whatever the entries of the table. *)
Theorem finished_animation_with_keyframe_100 now c previous returnKeys p
    (d : AnimationData) :
  p ∈ returnKeys ->
  animations !! name c = Some d ->
  0 < duration c ->
  duration c <= now - createdAt c ->
  last d.*1 = Some 100 ->
  getAnimationKeys now (Some c) (Some d) None
  = {| from := hundred; to := hundred; progress := hundred |}
  /\ transformOf
       (getAnimationValues animations now (Some c) previous returnKeys) p
     = Normal (Some (mkPart NaN NaN NaN)).
Proof.
  intros Hin Hd Hdur He HL.
  assert (getAnimationKeys now (Some c) (Some d) None
          = {| from := hundred; to := hundred; progress := hundred |}) as Hk
    by (by apply getAnimationKeys_saturated).
  split; [done|].
  rewrite engine_transform by done.
  unfold animationDataOf. rewrite Hd, Hk. cbn [from to progress].
  assert (crossfadeGuard now (Some hundred) previous = false) as ->
    by done.
  assert (calculateProgressBetweenKeys hundred hundred hundred = NaN) as ->
    by done.
  unfold partValue. by rewrite blend_NaN.
Qed.

Lemma progressAfter_negative e d :
  e < 0 -> 0 < d ->
  exists q, progressAfter e d = Fin q /\ (q < Qc_of_Z 0)%Qc.
Proof.
  intros He Hd. rewrite progressAfter_nonzero by lia.
  assert (Qc_of_Z 100 * Qc_of_Z e / Qc_of_Z d < Qc_of_Z 0)%Qc as Hneg.
  { assert (Qc_of_Z 0 = Qc_of_Z 0 * / Qc_of_Z d)%Qc as ->
      by (by rewrite Z2Qc_inj_0, Qcmult_0_l).
    unfold Qcdiv. apply Qcmult_lt_compat_r.
    - apply Qcinv_pos. by rewrite <- Z2Qc_inj_0, <- Z2Qc_inj_lt.
    - rewrite <- Z2Qc_inj_mul, <- Z2Qc_inj_lt. lia. }
  eexists. split; [done|]. unfold capAt. case_decide as H; [|done].
  destruct (Qclt_not_le _ _ H). apply Qclt_le_weak.
  eapply Qclt_trans; [exact Hneg|]. by rewrite <- Z2Qc_inj_lt.
Qed.

Lemma progressBetween_below_zero (q : Qc) :
  (q < Qc_of_Z 0)%Qc -> calculateProgressBetweenKeys zero zero (Fin q) = NInf.
Proof.
  intros Hq. unfold calculateProgressBetweenKeys, zero, ofZ. simpl.
  unfold sgnQ.
  assert (q + - Qc_of_Z 0 = q)%Qc as -> by (rewrite Z2Qc_inj_0; ring).
  destruct (Qccompare_spec q (Qc_of_Z 0)) as [H| -> |H]; [done| |].
  - by destruct (Qclt_not_eq _ _ Hq).
  - destruct (Qclt_not_le _ _ Hq). by apply Qclt_le_weak.
Qed.

Lemma lerp_same_NInf (a : Qc) : lerp (Fin a) (Fin a) NInf = NaN.
Proof.
  unfold lerp. simpl. unfold sgnQ.
  assert (a + - a = Qc_of_Z 0)%Qc as ->
    by (rewrite Z2Qc_inj_0; apply Qcplus_opp_r).
  done.
Qed.

Lemma blend_same_NInf v :
  finitePart v -> blend v v NInf = mkPart NaN NaN NaN.
Proof.
  destruct v as [[] [] []]; intros (?&?&?); try done.
  unfold blend; cbn [x y rotation]. by rewrite !lerp_same_NInf.
Qed.

(** X19: at a reference time before the creation instant of the current
    animation, with a keyframe table whose first key is 0 and whose keys
    are not negative, [from] and [to] are both 0, the blend factor is
    [-Infinity], and without a previous animation the transform returned
    for a requested part with finite entries has [NaN] in its three
    fields. *)
Theorem before_creation_with_keyframe_0 now c returnKeys p
    (d : AnimationData) :
  p ∈ returnKeys ->
  animations !! name c = Some d ->
  0 < duration c ->
  now < createdAt c ->
  head d.*1 = Some 0 ->
  Forall (fun k => 0 <= k) d.*1 ->
  Forall (fun e => forall v, e.2 !! p = Some v -> finitePart v) d ->
  let k := getAnimationKeys now (Some c) (Some d) None in
  from k = zero /\ to k = zero
  /\ calculateProgressBetweenKeys (from k) (to k) (progress k) = NInf
  /\ transformOf (getAnimationValues animations now (Some c) None returnKeys) p
     = Normal (Some (mkPart NaN NaN NaN)).
Proof.
  intros Hin Hd Hdur Hnow Hhead Hpos Hfin k.
  destruct (progressAfter_negative (now - createdAt c) (duration c))
    as (q & Hq & Hneg); [lia|done|].
  assert (getAnimationKeys now (Some c) (Some d) None
          = {| from := zero; to := zero; progress := Fin q |}) as Hk.
  { unfold getAnimationKeys. rewrite progressOf_live, Hq.
    destruct (bracketKeys_none d.*1 (Fin q)) as [-> _].
    - eapply Forall_impl; [exact Hpos|]. simpl. intros k' Hk'.
      unfold ofZ. rewrite ge_Fin. apply bool_decide_eq_false.
      apply Qclt_not_le. eapply Qclt_le_trans; [exact Hneg|].
      by rewrite <- Z2Qc_inj_le.
    - rewrite <- head_lookup, Hhead. done. }
  assert (calculateProgressBetweenKeys zero zero (Fin q) = NInf) as Hpb
    by by apply progressBetween_below_zero.
  unfold k. rewrite Hk. cbn [from to progress]. split_and!; try done.
  rewrite engine_transform by done.
  unfold animationDataOf. rewrite Hd, Hk. cbn [from to progress].
  rewrite Hpb.
  assert (crossfadeGuard now (Some zero) None = false) as -> by done.
  unfold partValue. cbn [mbind option_bind].
  rewrite blend_same_NInf; [done|]. by apply part_finite.
Qed.

End ZeroDivisions.

(** * The further properties on the sample data *)

Section MoreSamples.
Import Num Sample.

(** The entries of a sample table for a part are finite. *)
Ltac finite_entries :=
  repeat (apply Forall_cons;
          split; [intros v Hv; vm_compute in Hv;
                  first [discriminate Hv | injection Hv as <-; by vm_compute]|]);
  apply Forall_nil_2.

Lemma getAnimationValues_parts_witness :
  let c := mkAnimation "swing" 1000 1000 None in
  let m : gmap string AnimationDataPart := {[ "head" := partQ 10 (5 # 2) 0 ]} in
  (is_Some (m !! "head") <-> Some c <> None /\ "head" ∈ ["head"])
  /\ (is_Some (m !! "armLeft") <-> Some c <> None /\ "armLeft" ∈ ["head"]).
Proof.
  intros c m.
  assert (getAnimationValues animations 1500 (Some c) None ["head"] = Normal m)
    as Hm by compute_done.
  split; apply (getAnimationValues_parts animations 1500 (Some c) None
                  ["head"] m Hm).
Defined.

Lemma getAnimationValues_same_parts_witness :
  let c := mkAnimation "swing" 1000 1000 None in
  getAnimationValues animations 1500 (Some c) None ["head"; "armLeft"; "head"]
  = getAnimationValues animations 1500 (Some c) None ["armLeft"; "head"].
Proof.
  intros c. apply getAnimationValues_same_parts.
  intros p. rewrite !elem_of_cons, !elem_of_nil. tauto.
Defined.

Lemma crossfade_only_before_first_keyframe_witness :
  let c := mkAnimation "swing" 1000 1000 None in
  let o := mkAnimation "missing" 900 1000 (Some 1000) in
  getAnimationValues animations 1500 (Some c) (Some o) ["head"]
  = getAnimationValues animations 1500 (Some c) None ["head"].
Proof.
  intros c o. apply crossfade_only_before_first_keyframe. compute_done.
Defined.

Lemma expired_animation_is_ignored_witness :
  let c := mkAnimation "wave" 2400 1000 None in
  let o := mkAnimation "swing" 1000 1000 (Some 1500) in
  getAnimationValues animations 2500 (Some c) (Some o) ["head"]
  = getAnimationValues animations 2500 (Some c) None ["head"].
Proof.
  intros c o.
  apply (expired_animation_is_ignored animations 2000 o c ["head"]);
    compute_done.
Defined.


Lemma progress_never_decreases_witness :
  let a := mkAnimation "swing" 1000 1000 None in
  (progressOf 1500 a None >=? progressOf 1250 a None)%num = true.
Proof. intros a. apply progress_never_decreases; compute_done. Defined.

Lemma blend_factor_in_unit_interval_witness :
  let a := mkAnimation "swing" 1000 1000 None in
  let k := getAnimationKeys 1500 (Some a) (Some swing) None in
  exists r,
    calculateProgressBetweenKeys (from k) (to k) (progress k) = Fin r
    /\ (Qc_of_Z 0 <= r)%Qc /\ (r <= Qc_of_Z 1)%Qc.
Proof.
  intros a.
  apply (blend_factor_in_unit_interval 1500 a swing); compute_done.
Defined.


Lemma keyframe_hit_exactly_witness :
  transformAtProgress swing (ofZ 40) "head" = part 10 0 0.
Proof.
  rewrite (keyframe_hit_exactly swing 40 {[ "head" := part 10 0 0 ]} "head").
  - compute_done.
  - compute_done.
  - done.
  - done.
  - unfold swing. finite_entries.
Defined.

Lemma takeover_starts_from_frozen_witness :
  let c := mkAnimation "wave" 1500 1000 None in
  let o := mkAnimation "swing" 1000 1000 (Some 1500) in
  transformOf (getAnimationValues animations 1500 (Some c) (Some o) ["head"])
    "head"
  = Normal (Some (transformAtProgress swing
                    (progressAfter (1500 - 1000) 1000) "head")).
Proof.
  intros c o.
  apply (takeover_starts_from_frozen animations 1500 c o ["head"] "head"
           wave swing 1500); try compute_done.
  unfold wave. finite_entries.
Defined.

Lemma finished_animation_with_keyframe_100_witness :
  let c := mkAnimation "nod" 1000 1000 None in
  transformOf (getAnimationValues animations 2000 (Some c) None ["head"])
    "head"
  = Normal (Some (mkPart NaN NaN NaN)).
Proof.
  intros c.
  apply (finished_animation_with_keyframe_100 animations 2000 c None
           ["head"] "head" nod); compute_done.
Defined.

Lemma before_creation_with_keyframe_0_witness :
  let c := mkAnimation "swing" 1000 1000 None in
  transformOf (getAnimationValues animations 750 (Some c) None ["head"])
    "head"
  = Normal (Some (mkPart NaN NaN NaN)).
Proof.
  intros c.
  apply (before_creation_with_keyframe_0 animations 750 c ["head"] "head"
           swing); try compute_done.
  unfold swing. finite_entries.
Defined.

(** The game methods run on the sample lobby. *)
Example lobby_round :
  handlePlayerAttacks (players lobby)
  = Normal {[ "a" := mkPuppet "ann" 1 0 false;
              "b" := mkPuppet "bob" 3 5 true ]}
  /\ spawnPlayer lobby (Socket.mk "c") "cy" = Throw TypeError
  /\ players (handlePlayerMovement lobby (Socket.mk "a") ()) !! "a"
     = Some (mkPuppet "ann" 0 1 false)
  /\ players (removePlayer lobby (Socket.mk "a")) !! "a" = None.
Proof. split_and!; compute_done. Qed.

End MoreSamples.
